(** * datasketch: the banded trie index [MinHashLSHTrie] and the bulk MinHash helpers

    A shallow embedding of [datasketch/lsh_trie.py] and [datasketch/bulk.py].

    - Python [int] is [Z]; Python [float] is the kernel's binary64 [float].
    - A [dict] keyed by integers is a [gmap Z _]; a [set] of keys is a [gset K];
      a posting list is a [list K].
    - A method that mutates [self] takes the index and returns the index
      after the call next to its outcome.
    - [datasketch.minhash.MinHash] and [datasketch.lsh._optimal_param] are not
      part of these two files; they are taken as interfaces. *)

From Stdlib Require Import ZArith PrimFloat.
From stdpp Require Import gmap strings list fin_maps.

#[local] Open Scope Z_scope.
Set Warnings "-register-all,-inexact-float,-clear-no-such-hyp".

(** ** Python values and control flow shared by both files *)
Module Py.

(** The text of an exception, with the values its format string receives. *)
Inductive message : Type :=
| ThresholdRange                        (* "threshold must be in [0.0, 1.0]" *)
| TooFewPermutations                    (* "Too few permutation functions" *)
| WeightRange                           (* "Weight must be in [0.0, 1.0]" *)
| WeightSum                             (* "Weights must sum to 1.0" *)
| ParamsProduct (b r br num_perm : Z)   (* "The product of b and r in params is ..." *)
| Unpack (expected got : nat)           (* tuple unpacking of the wrong arity *)
| ExpectingLength (h got : Z)           (* "Expecting minhash with length %d, got %d" *)
| KeyExists                             (* "The given key already exists" *)
| ExpectingIterable (given : string).   (* "Expecting iterable, given: ..." *)

(** [assert cond, E(...)] raises [AssertionError] with the instance of [E]
    as its argument; [raise E(...)] raises [E] itself. *)
Inductive exn : Type :=
| ValueError (msg : message)
| TypeError (msg : message)
| AssertionError (arg : exn).

(** How a call ends. [Stuck] is not a Python outcome; it marks the two
    places where the model stops short of Python:
    - a walk of the trie that met a posting list where the path still needs
      a dict, or a dict where it needs a posting list. What Python does
      there depends on the values of the keys; no index built by the
      constructor and [insert] has such a node (see
      [LshTrieSpec.insert_not_stuck] and [LshTrieSpec.query_not_stuck]);
    - [list(g)] out of fuel, which the fuel it is given excludes (see
      [BulkSpec.list_of_pending]). *)
Inductive outcome (A : Type) : Type :=
| Returned (a : A)
| Raised (e : exn)
| Stuck.
Arguments Returned {A} a.
Arguments Raised {A} e.
Arguments Stuck {A}.

(** [range(n)] *)
Definition range (n : Z) : list Z := seqZ 0 n.

(** A bound of [l[start:stop]] brought into [0 .. len], as CPython's
    [PySlice_AdjustIndices] does for step 1. *)
Definition slice_index (len i : Z) : Z :=
  if i <? 0 then Z.max (i + len) 0 else Z.min i len.

Definition slice_length (len start stop : Z) : nat :=
  Z.to_nat (slice_index len stop - slice_index len start).

(** [l[start:stop]] *)
Definition slice {A : Type} (l : list A) (start stop : Z) : list A :=
  let len := Z.of_nat (length l) in
  take (slice_length len start stop) (drop (Z.to_nat (slice_index len start)) l).

(** [sum(ws)] over floats: left to right, starting from [0]. *)
Definition sum (ws : list float) : float := fold_left PrimFloat.add ws 0%float.

(** The fields of a [datasketch.minhash.MinHash] that the two files read.
    [hashvalues] is the signature; [.tolist()] turns it into Python ints. *)
Record MinHash : Type := mkMinHash {
  permutations : list Z * list Z;
  hashvalues : list Z;
  num_perm : Z;
  seed : Z;
  hashfunc : list Byte.byte → Z
}.

(** [len(minhash)] *)
Definition len (m : MinHash) : Z := Z.of_nat (length (hashvalues m)).

End Py.

(** ** lsh_trie.py *)
Module LshTrie.
Import Py.

(** [datasketch.lsh._optimal_param], imported by lsh_trie.py. *)
Class Optimizer : Type := _optimal_param : float → Z → float → float → Z * Z.

(** A value stored in a dict of the trie: a posting list (a Python list of
    keys) or a nested dict. *)
Inductive node (K : Type) : Type :=
| Leaf (posting : list K)
| Dict (children : gmap Z (node K)).
Arguments Leaf {K} posting.
Arguments Dict {K} children.

Section Index.
Context `{Countable K} `{Optimizer}.

Record MinHashLSHTrie : Type := mkIndex {
  h : Z;
  b : Z;
  r : Z;
  hashranges : list (Z * Z);
  root : gmap Z (node K);
  keys : gset K
}.

(** [[(i*r, (i+1)*r) for i in range(b)]] *)
Definition make_hashranges (b r : Z) : list (Z * Z) :=
  (λ i, (i * r, (i + 1) * r)) <$> range b.

(** The body of the [if params is not None: ... else: ...] statement. *)
Definition choose_params (threshold : float) (num_perm : Z) (weights : list float)
    (params : option (Z * Z)) : exn + Z * Z :=
  match params with
  | Some (b, r) =>
      if num_perm <? b * r
      then inl (ValueError (ParamsProduct b r (b * r) num_perm))
      else inr (b, r)
  | None =>
      match weights with
      | [false_positive_weight; false_negative_weight] =>
          inr (_optimal_param threshold num_perm
                 false_positive_weight false_negative_weight)
      | _ => inl (ValueError (Unpack 2 (length weights)))
      end
  end.

Definition __init__ (threshold : float) (num_perm : Z) (weights : list float)
    (params : option (Z * Z)) : outcome MinHashLSHTrie :=
  if PrimFloat.ltb 1 threshold || PrimFloat.ltb threshold 0
  then Raised (ValueError ThresholdRange)
  else if num_perm <? 2
  then Raised (ValueError TooFewPermutations)
  else if existsb (λ w, PrimFloat.ltb w 0 || PrimFloat.ltb 1 w) weights
  then Raised (ValueError WeightRange)
  else if negb (PrimFloat.eqb (sum weights) 1)
  then Raised (ValueError WeightSum)
  else
    match choose_params threshold num_perm weights params with
    | inl e => Raised e
    | inr (b, r) =>
        Returned {| h := num_perm; b := b; r := r;
                    hashranges := make_hashranges b r;
                    root := ∅; keys := ∅ |}
    end.

(** [[tuple([i, ] + minhash.hashvalues[start:end].tolist())
      for i, (start, end) in enumerate(self.hashranges)]] *)
Definition band_paths (hashranges : list (Z * Z)) (minhash : MinHash) : list (list Z) :=
  imap (λ i '(start, stop), Z.of_nat i :: slice (hashvalues minhash) start stop)
       hashranges.

(** The body of [for path in paths] in [insert], for [nodes = path[:-1]] and
    [leaf = path[-1]], written as the dict [cur] after the loop body. The
    dicts and lists of the trie are referenced by their parent only, so the
    update in place of the innermost dict is the update of every dict above
    it. [None]: see [Py.Stuck]; no dict was changed by then. *)
Fixpoint insert_path (key : K) (nodes : list Z) (leaf : Z) (cur : gmap Z (node K))
    : option (gmap Z (node K)) :=
  match nodes with
  | [] =>
      match cur !! leaf with
      | Some (Leaf posting) => Some (<[leaf := Leaf (posting ++ [key])]> cur)
      | Some (Dict _) => None
      | None => Some (<[leaf := Leaf [key]]> cur)
      end
  | n :: nodes' =>
      match cur !! n with
      | None =>
          child ← insert_path key nodes' leaf ∅;
          Some (<[n := Dict child]> cur)
      | Some (Dict d) =>
          child ← insert_path key nodes' leaf d;
          Some (<[n := Dict child]> cur)
      | Some (Leaf _) => None
      end
  end.

(** [for path in paths: ...] of [insert]: the root after the loop, and
    whether the loop ran to its end. *)
Fixpoint insert_paths (key : K) (paths : list (list Z)) (root : gmap Z (node K))
    : gmap Z (node K) * bool :=
  match paths with
  | [] => (root, true)
  | path :: paths' =>
      match insert_path key (removelast path) (List.last path 0) root with
      | Some root' => insert_paths key paths' root'
      | None => (root, false)
      end
  end.

Definition insert (self : MinHashLSHTrie) (key : K) (minhash : MinHash)
    (check_duplication : bool) : outcome unit * MinHashLSHTrie :=
  if negb (len minhash =? h self)
  then (Raised (AssertionError (ValueError (ExpectingLength (h self) (len minhash)))), self)
  else if check_duplication && bool_decide (key ∈ keys self)
  then (Raised (AssertionError (ValueError KeyExists)), self)
  else
    let paths := band_paths (hashranges self) minhash in
    match insert_paths key paths (root self) with
    | (root', true) =>
        (Returned (),
         {| h := h self; b := b self; r := r self; hashranges := hashranges self;
            root := root'; keys := {[key]} ∪ keys self |})
    | (root', false) =>
        (Stuck,
         {| h := h self; b := b self; r := r self; hashranges := hashranges self;
            root := root'; keys := keys self |})
    end.

(** What the walk of one path finds in [query]. *)
Inductive walk_result : Type :=
| Miss                          (* [miss or (leaf not in cur)] *)
| Hit (posting : list K)        (* [cur[leaf]] *)
| IllTyped.                     (* see [Py.Stuck] *)

Fixpoint walk (nodes : list Z) (leaf : Z) (cur : gmap Z (node K)) : walk_result :=
  match nodes with
  | [] =>
      match cur !! leaf with
      | Some (Leaf posting) => Hit posting
      | Some (Dict _) => IllTyped
      | None => Miss
      end
  | n :: nodes' =>
      match cur !! n with
      | Some (Dict d) => walk nodes' leaf d
      | Some (Leaf _) => IllTyped
      | None => Miss
      end
  end.

(** [for path in paths: ...] of [query], from the set [candidates]. *)
Fixpoint collect (paths : list (list Z)) (root : gmap Z (node K)) (candidates : gset K)
    : option (gset K) :=
  match paths with
  | [] => Some candidates
  | path :: paths' =>
      match walk (removelast path) (List.last path 0) root with
      | Miss => collect paths' root candidates
      | Hit posting => collect paths' root (candidates ∪ list_to_set posting)
      | IllTyped => None
      end
  end.

(** [list(candidates)] is [elements candidates]: the keys of the set, each
    once, in an order the caller cannot rely on. *)
Definition query (self : MinHashLSHTrie) (minhash : MinHash)
    : outcome (list K) * MinHashLSHTrie :=
  if negb (len minhash =? h self)
  then (Raised (AssertionError (ValueError (ExpectingLength (h self) (len minhash)))), self)
  else
    let paths := band_paths (hashranges self) minhash in
    match collect paths (root self) ∅ with
    | Some candidates => (Returned (elements candidates), self)
    | None => (Stuck, self)
    end.

Definition __contains__ (self : MinHashLSHTrie) (key : K) : bool :=
  bool_decide (key ∈ keys self).

(** ** The vocabulary of the properties *)

(** [path_posting path cur posting]: every label of [path] is present from
    the dict [cur] down, the last one at a posting list, [posting]. *)
Inductive path_posting : list Z → gmap Z (node K) → list K → Prop :=
| path_leaf leaf cur posting :
    cur !! leaf = Some (Leaf posting) →
    path_posting [leaf] cur posting
| path_step n path cur d posting :
    cur !! n = Some (Dict d) →
    path_posting path d posting →
    path_posting (n :: path) cur posting.

(** [wf_node d c]: the posting lists below [c] are all [d] dicts down. *)
Inductive wf_node : nat → node K → Prop :=
| wf_Leaf posting : wf_node 0 (Leaf posting)
| wf_Dict d children :
    (∀ k c, children !! k = Some c → wf_node d c) →
    wf_node (S d) (Dict children).

(** A dict whose entry at [k] is well formed at depth [depth k]. *)
Definition wf_dict (depth : Z → option nat) (m : gmap Z (node K)) : Prop :=
  ∀ k c, m !! k = Some c → ∃ d, depth k = Some d ∧ wf_node d c.

(** The number of row values of the band with index [k], for signatures of
    length [len]. *)
Definition band_depth (hashranges : list (Z * Z)) (len : Z) (k : Z) : option nat :=
  if decide (0 ≤ k)
  then (λ '(start, stop), slice_length len start stop) <$> hashranges !! Z.to_nat k
  else None.

(** A path whose first label is a band index and that has as many further
    labels as that band has rows. *)
Definition fits (depth : Z → option nat) (path : list Z) : Prop :=
  match path with
  | [] => False
  | k :: sl => depth k = Some (length sl)
  end.

Record index_inv (self : MinHashLSHTrie) : Prop := mkInv {
  inv_hashranges : hashranges self = make_hashranges (b self) (r self);
  inv_root : wf_dict (band_depth (hashranges self) (h self)) (root self)
}.

(** The indexes a program can hold: built by the constructor, then passed
    through calls of [insert] and [query], whatever their outcome. *)
Inductive reachable : MinHashLSHTrie → Prop :=
| reachable_init threshold num_perm weights params self :
    __init__ threshold num_perm weights params = Returned self →
    reachable self
| reachable_insert self key minhash check_duplication :
    reachable self →
    reachable (insert self key minhash check_duplication).2
| reachable_query self minhash :
    reachable self →
    reachable (query self minhash).2.

(** A sequence of calls of [insert], each of which returns. *)
Fixpoint insert_all (self : MinHashLSHTrie) (calls : list (K * MinHash * bool))
    : option MinHashLSHTrie :=
  match calls with
  | [] => Some self
  | (key, minhash, check_duplication) :: calls' =>
      match insert self key minhash check_duplication with
      | (Returned _, self') => insert_all self' calls'
      | _ => None
      end
  end.

(** The posting list at the end of [path] from the dict [cur], when every
    label of the path is present: [path_posting] as a function. *)
Fixpoint lookup_path (path : list Z) (cur : gmap Z (node K)) : option (list K) :=
  match path with
  | [] => None
  | n :: rest =>
      match rest with
      | [] =>
          match cur !! n with
          | Some (Leaf posting) => Some posting
          | _ => None
          end
      | _ :: _ =>
          match cur !! n with
          | Some (Dict d) => lookup_path rest d
          | _ => None
          end
      end
  end.

(** The keys of the calls of [insert], in the order of the calls, whose
    signature has [path] among its band paths. *)
Definition keys_at (hashranges : list (Z * Z)) (calls : list (K * MinHash * bool))
    (path : list Z) : list K :=
  flat_map (λ '(key, minhash, _),
              if bool_decide (path ∈ band_paths hashranges minhash) then [key] else [])
           calls.

End Index.
End LshTrie.

(** ** bulk.py *)
Module Bulk.
Import Py.

(** What bulk.py uses of [datasketch.minhash]: the constructor called with no
    argument, and the method [_compute_hashvalues]. *)
Class MinHashLib : Type := {
  MinHash_default : MinHash;
  _compute_hashvalues :
    MinHash → list (list Byte.byte) → list Z * list Z → list Z → list Z
}.

(** The argument [b] of the two batch functions, as far as
    [isinstance(b, Iterable)] and [for _b in b] see it: an instance of
    [Iterable] with the items it iterates over, or a value of another type,
    with the name of that type. *)
Inductive pyobj : Type :=
| PyIterable (items : list (list (list Byte.byte)))
| PyOther (type_name : string).

(** A generator object of [compute_minhashes_generator]: not started yet
    (the arguments are bound, no statement of the body has run), suspended
    at the [yield] with the rest of the iteration, or finished. *)
Inductive generator : Type :=
| Created (b : pyobj) (m : option MinHash)
| Suspended (rest : list (list (list Byte.byte))) (m : MinHash)
| Finished.

(** What resuming a generator gives its caller. *)
Inductive resumed : Type :=
| Yielded (v : MinHash)
| StopIteration
| Thrown (e : exn).

Section Bulk.
Context `{MinHashLib}.

Definition compute_minhash (b : list (list Byte.byte)) (m : MinHash) : MinHash :=
  mkMinHash (permutations m)
            (_compute_hashvalues m b (permutations m) (hashvalues m))
            (num_perm m) (seed m) (hashfunc m).

(** [for _b in b: yield compute_minhash(_b, m)], from the items left. *)
Definition for_yield (rest : list (list (list Byte.byte))) (m : MinHash)
    : resumed * generator :=
  match rest with
  | [] => (StopIteration, Finished)
  | _b :: rest' => (Yielded (compute_minhash _b m), Suspended rest' m)
  end.

(** [next(g)]: run the body up to the next [yield], its end, or an
    exception. On the first call the body starts: [m] gets its default, then
    [assert isinstance(b, Iterable), TypeError(...)], then the loop. *)
Definition next (g : generator) : resumed * generator :=
  match g with
  | Created b m =>
      let m := match m with None => MinHash_default | Some m => m end in
      match b with
      | PyIterable items => for_yield items m
      | PyOther type_name =>
          (Thrown (AssertionError (TypeError (ExpectingIterable type_name))), Finished)
      end
  | Suspended rest m => for_yield rest m
  | Finished => (StopIteration, Finished)
  end.

(** Calling a generator function binds the arguments and returns the
    generator object; the body starts at the first [next]. *)
Definition compute_minhashes_generator (b : pyobj) (m : option MinHash)
    : outcome generator :=
  Returned (Created b m).

(** The number of [next] calls that exhaust a generator. *)
Definition pending (g : generator) : nat :=
  match g with
  | Created (PyIterable items) _ => S (length items)
  | Created (PyOther _) _ => 1
  | Suspended rest _ => S (length rest)
  | Finished => 1
  end.

(** [list(g)], with at most [fuel] calls of [next]; [Stuck] when more are
    needed. *)
Fixpoint list_of (fuel : nat) (g : generator) : outcome (list MinHash) :=
  match fuel with
  | O => Stuck
  | S fuel' =>
      match next g with
      | (Yielded v, g') =>
          match list_of fuel' g' with
          | Returned vs => Returned (v :: vs)
          | o => o
          end
      | (StopIteration, _) => Returned []
      | (Thrown e, _) => Raised e
      end
  end.

Definition compute_minhashes (b : pyobj) (m : option MinHash) : outcome (list MinHash) :=
  match compute_minhashes_generator b m with
  | Returned g => list_of (pending g) g
  | Raised e => Raised e
  | Stuck => Stuck
  end.

(** The generator after [n] calls of [next]. *)
Definition advance (n : nat) (g : generator) : generator :=
  Nat.iter n (λ g, (next g).2) g.

End Bulk.
End Bulk.

(** ** Concrete indexes and signatures for the examples *)
Module Example.
Import Py LshTrie Bulk.

(** A stand-in for [_optimal_param]; the examples pass [params], so it is
    never called. *)
Definition sample_optimizer : Optimizer := λ _ num_perm _ _, (num_perm, 1).
#[export] Existing Instance sample_optimizer.

(** A stand-in for [datasketch.minhash]. *)
Definition sample_minhash_lib : MinHashLib :=
  {| MinHash_default := mkMinHash ([], []) [] 0 1 (λ _, 0);
     _compute_hashvalues := λ _ _ _ hashvalues, hashvalues |}.
#[export] Existing Instance sample_minhash_lib.

(** A MinHash with the given signature. *)
Definition signature (hashvalues : list Z) : MinHash :=
  mkMinHash ([], []) hashvalues (Z.of_nat (length hashvalues)) 1 (λ _, 0).

(** [MinHashLSHTrie(num_perm=4, params=(2, 2))] *)
Definition index_2x2 : MinHashLSHTrie (K:=string) :=
  {| h := 4; b := 2; r := 2; hashranges := [(0, 2); (2, 4)]; root := ∅; keys := ∅ |}.

(** ... after [insert("A", [1,2,3,4])] *)
Definition index_2x2_A : MinHashLSHTrie (K:=string) :=
  (insert index_2x2 "A"%string (signature [1; 2; 3; 4]) true).2.

(** [MinHashLSHTrie(num_perm=4, params=(2, 1))]: positions 2 and 3 are in no band. *)
Definition index_2x1 : MinHashLSHTrie (K:=string) :=
  {| h := 4; b := 2; r := 1; hashranges := [(0, 1); (1, 2)]; root := ∅; keys := ∅ |}.

(** [MinHashLSHTrie(num_perm=2, params=(0, 1))]: no band. *)
Definition index_0x1 : MinHashLSHTrie (K:=string) :=
  {| h := 2; b := 0; r := 1; hashranges := []; root := ∅; keys := ∅ |}.

Definition index_0x1_A : MinHashLSHTrie (K:=string) :=
  (insert index_0x1 "A"%string (signature [7; 8]) true).2.

(** [MinHashLSHTrie(num_perm=4, params=(1, -1))]: one band, [hashvalues[0:-1]]. *)
Definition index_1xm1 : MinHashLSHTrie (K:=string) :=
  {| h := 4; b := 1; r := -1; hashranges := [(0, -1)]; root := ∅; keys := ∅ |}.

Definition index_1xm1_A : MinHashLSHTrie (K:=string) :=
  (insert index_1xm1 "A"%string (signature [1; 2; 3; 4]) true).2.

End Example.

(** * Properties of lsh_trie.py *)
Module LshTrieSpec.
Import Py LshTrie.

(** ** Slices *)

Lemma slice_index_bounds (len i : Z) :
  0 ≤ len → 0 ≤ slice_index len i ≤ len.
Proof. unfold slice_index. case_eq (i <? 0); lia. Qed.

Lemma length_slice {A : Type} (l : list A) (start stop : Z) :
  length (slice l start stop) = slice_length (Z.of_nat (length l)) start stop.
Proof.
  unfold slice, slice_length.
  rewrite length_take, length_drop.
  pose proof (slice_index_bounds (Z.of_nat (length l)) start).
  pose proof (slice_index_bounds (Z.of_nat (length l)) stop).
  lia.
Qed.

(** Inside the list, with ordered bounds, a slice is a [take] of a [drop]. *)
Lemma slice_inside {A : Type} (l : list A) (start stop : Z) :
  0 ≤ start ≤ stop → stop ≤ Z.of_nat (length l) →
  slice l start stop = take (Z.to_nat (stop - start)) (drop (Z.to_nat start) l).
Proof.
  intros Hs He. unfold slice, slice_length, slice_index.
  replace (start <? 0) with false by lia.
  replace (stop <? 0) with false by lia.
  by rewrite !Z.min_l by lia.
Qed.

(** Two lists that agree below [n] have the same slices below [n]. *)
Lemma slice_agree {A : Type} (l1 l2 : list A) (n start stop : Z) :
  length l1 = length l2 →
  0 ≤ start ≤ stop → stop ≤ n → n ≤ Z.of_nat (length l1) →
  take (Z.to_nat n) l1 = take (Z.to_nat n) l2 →
  slice l1 start stop = slice l2 start stop.
Proof.
  intros Hlen Hs He Hn Htake.
  rewrite !slice_inside by lia.
  rewrite !take_drop_commute.
  replace (take (Z.to_nat start + Z.to_nat (stop - start)) l1)
    with (take (Z.to_nat start + Z.to_nat (stop - start)) (take (Z.to_nat n) l1)).
  2:{ rewrite take_take. f_equal. lia. }
  rewrite Htake, take_take. do 2 f_equal. lia.
Qed.

(** ** Paths *)

Lemma removelast_cons_length (k : Z) (sl : list Z) :
  length (removelast (k :: sl)) = length sl.
Proof.
  revert k. induction sl as [|x sl IH]; intros k; [done|].
  change (removelast (k :: x :: sl)) with (k :: removelast (x :: sl)).
  rewrite (length_cons k), (length_cons x). by rewrite IH.
Qed.

Lemma removelast_cons_hd (k : Z) (sl : list Z) :
  hd (List.last (k :: sl) 0) (removelast (k :: sl)) = k.
Proof. by destruct sl. Qed.

Lemma removelast_last_cons (k : Z) (sl : list Z) :
  removelast (k :: sl) ++ [List.last (k :: sl) 0] = k :: sl.
Proof. symmetry. by apply app_removelast_last. Qed.

Section Trie.
Context `{Countable K}.
Implicit Types (cur root : gmap Z (node K)) (nodes path : list Z) (key : K).

(** ** One path *)

Lemma wf_dict_empty depth : wf_dict (K:=K) depth ∅.
Proof. intros k c Hk. by rewrite lookup_empty in Hk. Qed.

Lemma wf_dict_insert depth cur k c d :
  wf_dict depth cur → depth k = Some d → wf_node d c →
  wf_dict depth (<[k := c]> cur).
Proof.
  intros Hwf Hd Hc k' c' Hk'.
  destruct (decide (k = k')) as [<-|Hne].
  - rewrite lookup_insert_eq in Hk'. injection Hk' as <-. eauto.
  - rewrite lookup_insert_ne in Hk' by done. eauto.
Qed.

(** In a well-formed dict, a path of the right length is written without
    meeting a node of the wrong kind, and the dict stays well formed. *)
Lemma insert_path_wf key nodes leaf : ∀ depth cur,
  wf_dict depth cur →
  depth (hd leaf nodes) = Some (length nodes) →
  ∃ cur', insert_path key nodes leaf cur = Some cur' ∧ wf_dict depth cur'.
Proof.
  induction nodes as [|n nodes IH]; intros depth cur Hwf Hd; simpl in *.
  - destruct (cur !! leaf) as [c|] eqn:Hc.
    + destruct (Hwf _ _ Hc) as (d & Hd' & Hn).
      assert (d = 0%nat) as -> by congruence.
      inversion Hn; subst.
      eexists; split; [done|]. eapply wf_dict_insert; eauto. constructor.
    + eexists; split; [done|]. eapply wf_dict_insert; eauto. constructor.
  - set (depth' := λ _ : Z, Some (length nodes)).
    assert (∀ d, wf_dict depth' d →
      ∃ cur', (child ← insert_path key nodes leaf d; Some (<[n := Dict child]> cur))
              = Some cur' ∧ wf_dict depth cur') as Hstep.
    { intros d Hd0.
      destruct (IH depth' d Hd0 eq_refl) as (child & -> & Hchild).
      eexists; split; [done|].
      eapply wf_dict_insert; eauto. constructor.
      intros k c Hk. destruct (Hchild _ _ Hk) as (d' & [= <-] & ?). done. }
    destruct (cur !! n) as [c|] eqn:Hc.
    + destruct (Hwf _ _ Hc) as (d & Hd' & Hn).
      assert (d = S (length nodes)) as -> by congruence.
      inversion Hn as [|? children Hch]; subst.
      apply Hstep. intros k c Hk. exists (length nodes). split; [done|]. eauto.
    + apply Hstep, wf_dict_empty.
Qed.

(** In a well-formed dict, a walk along a path of the right length meets no
    node of the wrong kind. *)
Lemma walk_wf nodes leaf : ∀ depth cur,
  wf_dict depth cur →
  depth (hd leaf nodes) = Some (length nodes) →
  walk nodes leaf cur ≠ IllTyped.
Proof.
  induction nodes as [|n nodes IH]; intros depth cur Hwf Hd; simpl in *.
  - destruct (cur !! leaf) as [c|] eqn:Hc; [|done].
    destruct (Hwf _ _ Hc) as (d & Hd' & Hn).
    assert (d = 0%nat) as -> by congruence.
    by inversion Hn.
  - destruct (cur !! n) as [c|] eqn:Hc; [|done].
    destruct (Hwf _ _ Hc) as (d & Hd' & Hn).
    assert (d = S (length nodes)) as -> by congruence.
    inversion Hn as [|? children Hch]; subst.
    apply (IH (λ _, Some (length nodes))); [|done].
    intros k c Hk. eauto.
Qed.

(** The walk of [query] finds a posting list exactly when the whole path is
    present. *)
Lemma walk_Hit nodes leaf : ∀ cur posting,
  walk nodes leaf cur = Hit posting ↔ path_posting (nodes ++ [leaf]) cur posting.
Proof.
  induction nodes as [|n nodes IH]; intros cur posting; simpl.
  - split.
    + destruct (cur !! leaf) as [[l|d]|] eqn:Hc; try done.
      intros [= <-]. by constructor.
    + inversion 1 as [? ? ? Hl|? ? ? ? ? ? Hp]; subst.
      * by rewrite Hl.
      * inversion Hp.
  - split.
    + destruct (cur !! n) as [[l|d]|] eqn:Hc; try done.
      intros Hw. econstructor; [done|]. by apply IH.
    + inversion 1 as [? ? ? Hl|? ? ? ? ? Hd Hp]; subst.
      * by destruct nodes.
      * rewrite Hd. by apply IH.
Qed.

(** The path just written is present, and its posting list holds the key. *)
Lemma insert_path_self key nodes leaf : ∀ cur cur',
  insert_path key nodes leaf cur = Some cur' →
  ∃ posting, path_posting (nodes ++ [leaf]) cur' posting ∧ key ∈ posting.
Proof.
  induction nodes as [|n nodes IH]; intros cur cur' Hins; simpl in *.
  - destruct (cur !! leaf) as [[l|d]|]; simplify_eq.
    + exists (l ++ [key]). split; [|set_solver].
      constructor. by rewrite lookup_insert_eq.
    + exists [key]. split; [|set_solver].
      constructor. by rewrite lookup_insert_eq.
  - assert (∀ d, (child ← insert_path key nodes leaf d; Some (<[n := Dict child]> cur))
                 = Some cur' →
              ∃ posting, path_posting (n :: nodes ++ [leaf]) cur' posting ∧ key ∈ posting)
      as Hstep.
    { intros d Hd. destruct (insert_path key nodes leaf d) as [child|] eqn:Hch; [|done].
      simpl in Hd. injection Hd as <-.
      destruct (IH _ _ Hch) as (posting & Hp & Hin).
      exists posting. split; [|done].
      econstructor; [|done]. by rewrite lookup_insert_eq. }
    destruct (cur !! n) as [[l|d]|]; [done|by eapply Hstep..].
Qed.

(** Writing a path removes no path and no posting: a path that was present
    stays present, and its posting list is the old one with keys appended. *)
Lemma insert_path_mono key nodes leaf : ∀ cur cur' path posting,
  insert_path key nodes leaf cur = Some cur' →
  path_posting path cur posting →
  ∃ more, path_posting path cur' (posting ++ more).
Proof.
  induction nodes as [|n nodes IH]; intros cur cur' path posting Hins Hp; simpl in *.
  - destruct (cur !! leaf) as [[l|d]|] eqn:Hc; simplify_eq.
    + inversion Hp as [lf ? ? Hl|m ? ? ? ? Hd Hp']; subst.
      * destruct (decide (lf = leaf)) as [->|Hne].
        -- exists [key]. constructor. rewrite lookup_insert_eq. congruence.
        -- exists []. rewrite app_nil_r. constructor. by rewrite lookup_insert_ne.
      * exists []. rewrite app_nil_r. econstructor; [|done].
        rewrite lookup_insert_ne; [done|congruence].
    + exists []. rewrite app_nil_r.
      inversion Hp as [lf ? ? Hl|m ? ? ? ? Hd Hp']; subst.
      * constructor. rewrite lookup_insert_ne; [done|congruence].
      * econstructor; [|done]. rewrite lookup_insert_ne; [done|congruence].
  - assert (∀ d, cur !! n = None ∨ cur !! n = Some (Dict d) →
              (child ← insert_path key nodes leaf d; Some (<[n := Dict child]> cur))
                 = Some cur' →
              (cur !! n = None → d = ∅) →
              ∃ more, path_posting path cur' (posting ++ more)) as Hstep.
    { intros d Hcur Hd Hempty.
      destruct (insert_path key nodes leaf d) as [child|] eqn:Hch; [|done].
      simpl in Hd. injection Hd as <-.
      inversion Hp as [lf ? ? Hl|m ? ? d' ? Hd' Hp']; subst.
      - exists []. rewrite app_nil_r. constructor.
        rewrite lookup_insert_ne; [done|]. intros ->. destruct Hcur; congruence.
      - destruct (decide (m = n)) as [->|Hne].
        + destruct Hcur as [Hcur|Hcur]; [congruence|].
          assert (d' = d) as -> by congruence.
          destruct (IH _ _ _ _ Hch Hp') as (more & Hmore).
          exists more. econstructor; [|done]. by rewrite lookup_insert_eq.
        + exists []. rewrite app_nil_r. econstructor; [|done].
          by rewrite lookup_insert_ne. }
    destruct (cur !! n) as [[l|d]|] eqn:Hc; [done| |].
    + eapply Hstep; eauto. congruence.
    + eapply Hstep; eauto.
Qed.

(** ** The loops over the band paths *)

Lemma fits_hd depth path :
  fits depth path →
  depth (hd (List.last path 0) (removelast path)) = Some (length (removelast path)).
Proof.
  destruct path as [|k sl]; [done|]. unfold fits.
  by rewrite removelast_cons_hd, removelast_cons_length.
Qed.

Lemma fits_split depth path :
  fits depth path → removelast path ++ [List.last path 0] = path.
Proof. destruct path as [|k sl]; [done|]. intros _. apply removelast_last_cons. Qed.

Lemma band_paths_lookup hashranges minhash i path :
  band_paths hashranges minhash !! i = Some path ↔
  ∃ start stop, hashranges !! i = Some (start, stop) ∧
                path = Z.of_nat i :: slice (hashvalues minhash) start stop.
Proof.
  unfold band_paths. rewrite list_lookup_imap.
  destruct (hashranges !! i) as [[start stop]|]; simpl; [|naive_solver].
  split; [intros [= <-]; eauto|]. by intros (? & ? & [= <- <-] & ->).
Qed.

Lemma band_paths_fits hashranges minhash :
  Forall (fits (band_depth hashranges (len minhash))) (band_paths hashranges minhash).
Proof.
  apply Forall_lookup. intros i path (start & stop & Hi & ->)%band_paths_lookup.
  unfold fits, band_depth. rewrite decide_True by lia.
  rewrite Nat2Z.id, Hi. simpl. by rewrite length_slice.
Qed.

Lemma insert_paths_wf key depth paths : ∀ root,
  Forall (fits depth) paths → wf_dict depth root →
  ∃ root', insert_paths key paths root = (root', true) ∧ wf_dict depth root'.
Proof.
  induction paths as [|path paths IH]; intros root Hfits Hwf; simpl.
  - eauto.
  - apply Forall_cons in Hfits as [Hfit Hfits].
    destruct (insert_path_wf key _ _ _ _ Hwf (fits_hd _ _ Hfit)) as (root1 & -> & Hwf1).
    by apply IH.
Qed.

Lemma insert_paths_mono key paths : ∀ root root' path posting,
  insert_paths key paths root = (root', true) →
  path_posting path root posting →
  ∃ more, path_posting path root' (posting ++ more).
Proof.
  induction paths as [|p paths IH]; intros root root' path posting Hins Hp; simpl in *.
  - injection Hins as <-. exists []. by rewrite app_nil_r.
  - destruct (insert_path key _ _ root) as [root1|] eqn:H1; [|done].
    destruct (insert_path_mono _ _ _ _ _ _ _ H1 Hp) as (more1 & Hp1).
    destruct (IH _ _ _ _ Hins Hp1) as (more & Hmore).
    exists (more1 ++ more). by rewrite app_assoc.
Qed.

Lemma insert_paths_self key depth paths : ∀ root root' path,
  insert_paths key paths root = (root', true) →
  Forall (fits depth) paths → path ∈ paths →
  ∃ posting, path_posting path root' posting ∧ key ∈ posting.
Proof.
  induction paths as [|p paths IH]; intros root root' path Hins Hfits Hin; simpl in *.
  - by apply elem_of_nil in Hin.
  - apply Forall_cons in Hfits as [Hfit Hfits].
    destruct (insert_path key _ _ root) as [root1|] eqn:H1; [|done].
    apply elem_of_cons in Hin as [->|Hin]; [|by eapply IH].
    destruct (insert_path_self _ _ _ _ _ H1) as (posting & Hp & Hk).
    rewrite (fits_split _ _ Hfit) in Hp.
    destruct (insert_paths_mono _ _ _ _ _ _ Hins Hp) as (more & Hmore).
    exists (posting ++ more). split; [done|]. set_solver.
Qed.

Lemma collect_wf depth paths root : ∀ candidates,
  Forall (fits depth) paths → wf_dict depth root →
  is_Some (collect paths root candidates).
Proof.
  induction paths as [|p paths IH]; intros candidates Hfits Hwf; simpl; [done|].
  apply Forall_cons in Hfits as [Hfit Hfits].
  pose proof (walk_wf _ _ _ _ Hwf (fits_hd _ _ Hfit)) as Hw.
  destruct (walk _ _ root); [by apply IH..|done].
Qed.

(** The set built by the loop of [query]: the candidates it started from,
    and the keys of the posting lists its walks found. *)
Lemma collect_spec paths root : ∀ candidates candidates',
  collect paths root candidates = Some candidates' →
  ∀ key, key ∈ candidates' ↔
    key ∈ candidates ∨
    ∃ path posting, path ∈ paths ∧
      walk (removelast path) (List.last path 0) root = Hit posting ∧ key ∈ posting.
Proof.
  induction paths as [|p paths IH]; intros candidates candidates' Hc key; simpl in *.
  - injection Hc as <-. split; [auto|]. intros [?|(? & ? & []%elem_of_nil & _)]. done.
  - destruct (walk _ _ root) as [|posting|] eqn:Hw; [| |done].
    + rewrite (IH _ _ Hc). split.
      * intros [?|(path & posting & ? & ? & ?)]; [auto|].
        right. exists path, posting. set_solver.
      * intros [?|(path & posting & [->|?]%elem_of_cons & Hp & ?)]; [auto| |].
        -- congruence.
        -- right. eauto.
    + rewrite (IH _ _ Hc). split.
      * intros [[?|Hk%elem_of_list_to_set]%elem_of_union|(path & l & ? & ? & ?)]; [auto| |].
        -- right. exists p, posting. set_solver.
        -- right. exists path, l. set_solver.
      * intros [?|(path & l & [->|?]%elem_of_cons & Hp & ?)].
        -- left. set_solver.
        -- left. assert (l = posting) as -> by congruence. set_solver.
        -- right. eauto.
Qed.

End Trie.

(** ** The index *)
Section Index.
Context `{Countable K} `{Optimizer}.
Implicit Types (self : MinHashLSHTrie (K:=K)) (key : K) (minhash : MinHash).

Lemma make_hashranges_lookup (b0 r0 : Z) (i : nat) (start stop : Z) :
  make_hashranges b0 r0 !! i = Some (start, stop) ↔
  Z.of_nat i < b0 ∧ start = Z.of_nat i * r0 ∧ stop = (Z.of_nat i + 1) * r0.
Proof.
  unfold make_hashranges, range. rewrite list_lookup_fmap, fmap_Some.
  setoid_rewrite lookup_seqZ. split.
  - intros (x & [-> ?] & [= -> ->]). rewrite !Z.add_0_l. auto.
  - intros (? & -> & ->). exists (Z.of_nat i). rewrite !Z.add_0_l. auto.
Qed.


(** *** What a call leaves as it was *)

Lemma insert_frame self key minhash cd :
  let self' := (insert self key minhash cd).2 in
  h self' = h self ∧ b self' = b self ∧ r self' = r self ∧
  hashranges self' = hashranges self.
Proof.
  unfold insert. repeat case_match; simpl; auto.
Qed.

Lemma query_frame self minhash : (query self minhash).2 = self.
Proof. unfold query. by repeat case_match. Qed.

(** A call of [insert] that returns wrote every band path and added the key. *)
Lemma insert_Returned self key minhash cd u self' :
  insert self key minhash cd = (Returned u, self') →
  len minhash = h self ∧
  insert_paths key (band_paths (hashranges self) minhash) (root self) = (root self', true) ∧
  keys self' = {[key]} ∪ keys self.
Proof.
  unfold insert. destruct (len minhash =? h self) eqn:Hlen; simpl; [|done].
  destruct (cd && bool_decide (key ∈ keys self)); [done|].
  destruct (insert_paths _ _ _) as [root' []]; [|done].
  intros [= _ <-]. simpl. split; [lia|done].
Qed.

(** *** The invariant *)

Lemma init_inv threshold num_perm weights params self :
  __init__ threshold num_perm weights params = Returned self → index_inv self.
Proof.
  unfold __init__. repeat case_match; try done.
  intros [= <-]. split; simpl; [done|]. apply wf_dict_empty.
Qed.

Lemma insert_inv self key minhash cd :
  index_inv self →
  index_inv (insert self key minhash cd).2 ∧ (insert self key minhash cd).1 ≠ Stuck.
Proof.
  intros [Hhr Hroot]. unfold insert.
  destruct (len minhash =? h self) eqn:Hlen; simpl; [|done].
  destruct (cd && bool_decide (key ∈ keys self)); [done|].
  pose proof (band_paths_fits (hashranges self) minhash) as Hfits.
  replace (len minhash) with (h self) in Hfits by lia.
  destruct (insert_paths_wf key _ _ _ Hfits Hroot) as (root' & -> & Hwf).
  done.
Qed.

Lemma reachable_inv self : reachable self → index_inv self.
Proof.
  induction 1 as [? ? ? ? ? Hinit| |].
  - by eapply init_inv.
  - by apply insert_inv.
  - by rewrite query_frame.
Qed.

(** No call on an index a program can hold ends in [Stuck]. *)
Lemma insert_not_stuck self key minhash cd :
  reachable self → (insert self key minhash cd).1 ≠ Stuck.
Proof. intros Hr%reachable_inv. by apply insert_inv. Qed.

Lemma insert_Returned_reachable self key minhash cd u self' :
  reachable self → insert self key minhash cd = (Returned u, self') → reachable self'.
Proof.
  intros Hr Hins. pose proof (reachable_insert _ key minhash cd Hr) as Hr'.
  by rewrite Hins in Hr'.
Qed.

(** *** The result of [query] *)

(** On a well-formed index, [query] returns, and its result holds exactly
    the keys of the posting lists at the band paths of the signature. *)
Lemma query_spec self minhash :
  index_inv self → len minhash = h self →
  ∃ res, query self minhash = (Returned res, self) ∧ NoDup res ∧
    ∀ key, key ∈ res ↔
      ∃ (i : nat) start stop posting,
        hashranges self !! i = Some (start, stop) ∧
        path_posting (Z.of_nat i :: slice (hashvalues minhash) start stop)
                     (root self) posting ∧
        key ∈ posting.
Proof.
  intros [Hhr Hroot] Hlen. unfold query.
  replace (len minhash =? h self) with true by lia. simpl.
  pose proof (band_paths_fits (hashranges self) minhash) as Hfits.
  rewrite Hlen in Hfits.
  destruct (collect_wf _ _ _ ∅ Hfits Hroot) as [candidates Hc]. rewrite Hc.
  eexists. split; [done|]. split; [apply NoDup_elements|].
  intros key. rewrite elem_of_elements, (collect_spec _ _ _ _ Hc). split.
  - intros [[]%not_elem_of_empty|(path & posting & Hin & Hw & Hk)].
    apply list_elem_of_lookup in Hin as [i Hi].
    pose proof Hi as (start & stop & Hi' & ->)%band_paths_lookup.
    exists i, start, stop, posting. split; [done|]. split; [|done].
    apply walk_Hit in Hw. by rewrite removelast_last_cons in Hw.
  - intros (i & start & stop & posting & Hi & Hp & Hk). right.
    exists (Z.of_nat i :: slice (hashvalues minhash) start stop), posting.
    split; [|split; [|done]].
    + apply list_elem_of_lookup. exists i. apply band_paths_lookup. eauto.
    + apply walk_Hit. by rewrite removelast_last_cons.
Qed.

Lemma query_not_stuck self minhash :
  reachable self → (query self minhash).1 ≠ Stuck.
Proof.
  intros Hinv%reachable_inv.
  destruct (decide (len minhash = h self)) as [Hlen|Hlen].
  - destruct (query_spec self minhash Hinv Hlen) as (res & -> & _). done.
  - unfold query. replace (len minhash =? h self) with false by lia. done.
Qed.

(** *** Sequences of calls *)

Lemma insert_all_facts calls : ∀ self self',
  insert_all self calls = Some self' →
  h self' = h self ∧ hashranges self' = hashranges self ∧
  keys self ⊆ keys self' ∧
  (reachable self → reachable self') ∧
  ∀ path posting, path_posting path (root self) posting →
    ∃ more, path_posting path (root self') (posting ++ more).
Proof.
  induction calls as [|[[key minhash] cd] calls IH]; intros self self' Hall; simpl in *.
  - injection Hall as <-. repeat split; auto.
    intros path posting Hp. exists []. by rewrite app_nil_r.
  - destruct (insert self key minhash cd) as [[u| |] self1] eqn:Hins; try done.
    destruct (IH _ _ Hall) as (Hh & Hhr & Hk & Hreach & Hmono).
    pose proof (insert_frame self key minhash cd) as Hframe.
    rewrite Hins in Hframe. simpl in Hframe. destruct Hframe as (Hh1 & _ & _ & Hhr1).
    destruct (insert_Returned _ _ _ _ _ _ Hins) as (_ & Hpaths & Hkeys).
    repeat split.
    + congruence.
    + congruence.
    + set_solver.
    + intros Hr. apply Hreach. by eapply insert_Returned_reachable.
    + intros path posting Hp.
      destruct (insert_paths_mono _ _ _ _ _ _ Hpaths Hp) as (more1 & Hp1).
      destruct (Hmono _ _ Hp1) as (more & Hp').
      exists (more1 ++ more). by rewrite app_assoc.
Qed.

(** ** The claims about the index *)

(** C1, amended to indexes with at least one band: on an index with
    [1 ≤ b], after a call [insert(key, S)] that returns, the path of every
    band of [S] is present with [key] in its posting list, and [query(S)]
    returns a list that contains [key]. *)
Theorem insert_then_query_contains self key minhash cd self' :
  reachable self → 1 ≤ b self →
  insert self key minhash cd = (Returned (), self') →
  (∀ i : Z, 0 ≤ i < b self →
     ∃ posting,
       path_posting (i :: slice (hashvalues minhash) (i * r self) ((i + 1) * r self))
                    (root self') posting ∧
       key ∈ posting) ∧
  ∃ res, query self' minhash = (Returned res, self') ∧ key ∈ res.
Proof.
  intros Hreach Hb Hins.
  pose proof (reachable_inv _ Hreach) as Hinv.
  pose proof (reachable_inv _ (insert_Returned_reachable _ _ _ _ _ _ Hreach Hins)) as Hinv'.
  pose proof (insert_frame self key minhash cd) as Hframe.
  rewrite Hins in Hframe. simpl in Hframe. destruct Hframe as (Hh & _ & _ & Hhr).
  destruct (insert_Returned _ _ _ _ _ _ Hins) as (Hlen & Hpaths & _).
  assert (∀ i : Z, 0 ≤ i < b self →
    hashranges self !! Z.to_nat i = Some (i * r self, (i + 1) * r self)) as Hband.
  { intros i Hi. rewrite (inv_hashranges _ Hinv).
    apply make_hashranges_lookup. rewrite Z2Nat.id by lia. auto with lia. }
  assert (∀ i : Z, 0 ≤ i < b self →
    ∃ posting,
      path_posting (i :: slice (hashvalues minhash) (i * r self) ((i + 1) * r self))
                   (root self') posting ∧
      key ∈ posting) as Hall.
  { intros i Hi.
    apply (insert_paths_self key _ _ _ _ _ Hpaths
             (band_paths_fits (hashranges self) minhash)).
    apply list_elem_of_lookup. exists (Z.to_nat i). apply band_paths_lookup.
    exists (i * r self), ((i + 1) * r self). rewrite Z2Nat.id by lia. auto. }
  split; [exact Hall|].
  destruct (query_spec self' minhash Hinv') as (res & Hq & _ & Hres); [congruence|].
  exists res. split; [done|]. apply Hres.
  destruct (Hall 0) as (posting & Hp & Hk); [lia|].
  exists (Z.to_nat 0), (0 * r self), ((0 + 1) * r self), posting.
  rewrite Hhr, (Hband 0) by lia. done.
Qed.

(** C2: for a signature of length [H], [query] returns; its result holds
    exactly the keys of the posting lists of the bands whose whole path
    [[i] ++ S[i*r:(i+1)*r]] is present in the trie (a band with an absent
    node or leaf adds nothing and raises nothing), each key once. *)
Theorem query_semantics self minhash :
  reachable self → len minhash = h self →
  ∃ res, query self minhash = (Returned res, self) ∧ NoDup res ∧
    ∀ key, key ∈ res ↔
      ∃ (i : Z) posting,
        0 ≤ i < b self ∧
        path_posting (i :: slice (hashvalues minhash) (i * r self) ((i + 1) * r self))
                     (root self) posting ∧
        key ∈ posting.
Proof.
  intros Hinv%reachable_inv Hlen.
  destruct (query_spec self minhash Hinv Hlen) as (res & Hq & Hnodup & Hres).
  exists res. split; [done|]. split; [done|].
  intros key. rewrite Hres, (inv_hashranges _ Hinv). split.
  - intros (i & start & stop & posting & (Hi & -> & ->)%make_hashranges_lookup & Hp & Hk).
    exists (Z.of_nat i), posting. split; [lia|]. by split.
  - intros (i & posting & Hi & Hp & Hk).
    exists (Z.to_nat i), (i * r self), ((i + 1) * r self), posting.
    rewrite make_hashranges_lookup, Z2Nat.id by lia. repeat split; [lia|done..].
Qed.

(** C3: when [key] is in the key set, [insert(key, S, check_duplication=True)]
    with [len(S) = H] raises, and the index after the call is the index
    before it: trie and key set are untouched. *)
Theorem insert_duplicate_rejected self key minhash :
  key ∈ keys self → len minhash = h self →
  insert self key minhash true
  = (Raised (AssertionError (ValueError KeyExists)), self).
Proof.
  intros Hkey Hlen. unfold insert.
  replace (len minhash =? h self) with true by lia. simpl.
  by rewrite bool_decide_eq_true_2.
Qed.

(** C4: calls of [insert] that return only add: the key set grows, every
    path present before is present after with its posting list extended at
    the end, and a key that [query(S)] returned is returned by [query(S)]
    after the calls. *)
Theorem insert_never_evicts self calls self' :
  reachable self → insert_all self calls = Some self' →
  keys self ⊆ keys self' ∧
  (∀ path posting, path_posting path (root self) posting →
     ∃ more, path_posting path (root self') (posting ++ more)) ∧
  ∀ minhash res key,
    query self minhash = (Returned res, self) → key ∈ res →
    ∃ res', query self' minhash = (Returned res', self') ∧ key ∈ res'.
Proof.
  intros Hreach Hall.
  destruct (insert_all_facts _ _ _ Hall) as (Hh & Hhr & Hkeys & Hreach' & Hmono).
  split; [done|]. split; [done|].
  intros minhash res key Hq Hkey.
  assert (len minhash = h self) as Hlen.
  { unfold query in Hq. destruct (len minhash =? h self) eqn:E; [lia|done]. }
  destruct (query_spec self minhash (reachable_inv _ Hreach) Hlen)
    as (res0 & Hq0 & _ & Hres0).
  assert (res0 = res) as -> by congruence.
  apply Hres0 in Hkey as (i & start & stop & posting & Hi & Hp & Hk).
  destruct (query_spec self' minhash (reachable_inv _ (Hreach' Hreach)))
    as (res' & Hq' & _ & Hres'); [congruence|].
  exists res'. split; [done|]. apply Hres'.
  destruct (Hmono _ _ Hp) as (more & Hp').
  exists i, start, stop, (posting ++ more).
  split; [congruence|]. split; [done|]. set_solver.
Qed.

(** C7: [query] changes no component of the index, and a second call with
    the same signature gives the same result. *)
Theorem query_read_only self minhash :
  (query self minhash).2 = self ∧
  h (query self minhash).2 = h self ∧
  b (query self minhash).2 = b self ∧
  r (query self minhash).2 = r self ∧
  hashranges (query self minhash).2 = hashranges self ∧
  root (query self minhash).2 = root self ∧
  keys (query self minhash).2 = keys self ∧
  query (query self minhash).2 minhash = query self minhash.
Proof. by rewrite !query_frame. Qed.

(** C8, amended to rows [0 ≤ r]: when [b*r < H] and two signatures of
    length [H] agree on the positions below [b*r], [insert] with either
    gives the same outcome and index, and [query] with either gives the
    same result. *)
Theorem trailing_positions_unused self key m1 m2 cd :
  reachable self → 0 ≤ r self → b self * r self < h self →
  len m1 = h self → len m2 = h self →
  (∀ j : nat, Z.of_nat j < b self * r self → hashvalues m1 !! j = hashvalues m2 !! j) →
  insert self key m1 cd = insert self key m2 cd ∧
  query self m1 = query self m2.
Proof.
  intros Hreach Hr Hbr Hl1 Hl2 Hagree.
  pose proof (reachable_inv _ Hreach) as [Hhr _].
  unfold len in Hl1, Hl2.
  assert (take (Z.to_nat (b self * r self)) (hashvalues m1)
          = take (Z.to_nat (b self * r self)) (hashvalues m2)) as Htake.
  { apply list_eq. intros j.
    destruct (decide (j < Z.to_nat (b self * r self))%nat).
    - rewrite !lookup_take_lt by done. apply Hagree. lia.
    - rewrite !lookup_take_ge by lia. done. }
  assert (band_paths (hashranges self) m1 = band_paths (hashranges self) m2) as Hpaths.
  { unfold band_paths. apply imap_ext. intros i [start stop] Hi.
    rewrite Hhr in Hi. apply make_hashranges_lookup in Hi as (Hib & -> & ->).
    f_equal. apply (slice_agree _ _ (b self * r self)); [lia|nia|nia|lia|done]. }
  unfold insert, query, len. rewrite Hpaths.
  replace (Z.of_nat (length (hashvalues m1))) with (h self) by done.
  replace (Z.of_nat (length (hashvalues m2))) with (h self) by done.
  done.
Qed.

(** ** The claims about the constructor *)


(** C10: a threshold above 1 or below 0, fewer than 2 permutations, a
    weight below 0 or above 1, or weights whose sum is not 1 make the
    constructor raise one of the four errors of these checks, the same for
    every [params], given or not. *)
Theorem init_validates_before_params threshold num_perm weights :
  PrimFloat.ltb 1 threshold || PrimFloat.ltb threshold 0 = true ∨
  num_perm < 2 ∨
  (∃ w, w ∈ weights ∧ PrimFloat.ltb w 0 || PrimFloat.ltb 1 w = true) ∨
  PrimFloat.eqb (sum weights) 1 = false →
  ∃ msg, msg ∈ [ThresholdRange; TooFewPermutations; WeightRange; WeightSum] ∧
    ∀ params, __init__ (K:=K) threshold num_perm weights params = Raised (ValueError msg).
Proof.
  intros Hbad. unfold __init__.
  destruct (PrimFloat.ltb 1 threshold || PrimFloat.ltb threshold 0) eqn:Ht.
  { exists ThresholdRange. split; [set_solver|done]. }
  destruct (num_perm <? 2) eqn:Hn.
  { exists TooFewPermutations. split; [set_solver|done]. }
  destruct (existsb _ weights) eqn:Hw.
  { exists WeightRange. split; [set_solver|done]. }
  destruct (PrimFloat.eqb (sum weights) 1) eqn:Hs; simpl.
  2:{ exists WeightSum. split; [set_solver|done]. }
  exfalso. destruct Hbad as [?|[?|[(w & Hin & Hbad)|?]]]; [done|lia| |done].
  apply not_true_iff_false in Hw. apply Hw.
  apply existsb_exists. exists w. split; [|done]. by apply list_elem_of_In.
Qed.

(** The comparisons of the threshold check are those of binary64: a
    threshold that is not a number is neither above 1 nor below 0, and the
    constructor returns. *)
Remark init_nan_threshold (b0 r0 : Z) :
  b0 * r0 ≤ 128 →
  ∃ self, __init__ (K:=K) PrimFloat.nan 128 [0.5; 0.5]%float (Some (b0, r0))
          = Returned self.
Proof.
  intros Hbr. unfold __init__, choose_params.
  replace (128 <? b0 * r0) with false by lia. simpl. eauto.
Qed.

End Index.

(** ** The claims at concrete indexes *)
Section Concrete.
Import Example.
#[local] Open Scope string_scope.

Lemma index_2x2_reachable : reachable index_2x2.
Proof. by apply (reachable_init 0.9 4 [0.5; 0.5]%float (Some (2, 2))). Qed.

Lemma index_2x2_A_reachable : reachable index_2x2_A.
Proof. apply reachable_insert, index_2x2_reachable. Qed.

Lemma index_2x1_reachable : reachable index_2x1.
Proof. by apply (reachable_init 0.9 4 [0.5; 0.5]%float (Some (2, 1))). Qed.

Lemma index_0x1_reachable : reachable index_0x1.
Proof. by apply (reachable_init 0.9 2 [0.5; 0.5]%float (Some (0, 1))). Qed.

Lemma index_1xm1_reachable : reachable index_1xm1.
Proof. by apply (reachable_init 0.9 4 [0.5; 0.5]%float (Some (1, -1))). Qed.

(** C1 as amended, at [index_2x2] and the signature [1, 2, 3, 4]. *)
Lemma insert_then_query_contains_witness :
  reachable index_2x2 ∧ (1 ≤ b index_2x2)%Z ∧
  insert index_2x2 "A" (signature [1; 2; 3; 4]) true = (Returned (), index_2x2_A) ∧
  (∀ i : Z, (0 ≤ i < b index_2x2)%Z →
     ∃ posting,
       path_posting (i :: slice (hashvalues (signature [1; 2; 3; 4]))
                                (i * r index_2x2) ((i + 1) * r index_2x2))%Z
                    (root index_2x2_A) posting ∧
       "A" ∈ posting) ∧
  ∃ res, query index_2x2_A (signature [1; 2; 3; 4]) = (Returned res, index_2x2_A) ∧
         "A" ∈ res.
Proof.
  assert (insert index_2x2 "A" (signature [1; 2; 3; 4]) true
          = (Returned (), index_2x2_A)) as Hins by (vm_compute; reflexivity).
  assert (1 ≤ b index_2x2)%Z as Hb by (simpl; lia).
  split; [apply index_2x2_reachable|]. split; [exact Hb|]. split; [exact Hins|].
  exact (insert_then_query_contains index_2x2 "A" (signature [1; 2; 3; 4]) true
           index_2x2_A index_2x2_reachable Hb Hins).
Defined.

(** C1 as stated fails on an index without bands: the constructor accepts
    [params = (0, 1)], [insert] then writes no path, and [query] with the
    inserted signature returns the empty list. *)
Lemma roundtrip_fails_without_bands :
  __init__ 0.9 2 [0.5; 0.5]%float (Some (0, 1)) = Returned index_0x1 ∧
  len (signature [7; 8]) = h index_0x1 ∧
  insert index_0x1 "A" (signature [7; 8]) true = (Returned (), index_0x1_A) ∧
  query index_0x1_A (signature [7; 8]) = (Returned [], index_0x1_A) ∧
  ¬ ∃ res, query index_0x1_A (signature [7; 8]) = (Returned res, index_0x1_A) ∧
           "A" ∈ res.
Proof.
  assert (query index_0x1_A (signature [7; 8]) = (Returned [], index_0x1_A)) as Hq
    by (vm_compute; reflexivity).
  repeat split; try (vm_compute; reflexivity).
  intros (res & Hres & Hin). rewrite Hq in Hres. injection Hres as <-.
  by apply elem_of_nil in Hin.
Qed.

(** C2 at the index after [insert("A", [1,2,3,4])] and the signature [1, 2, 9, 9]. *)
Lemma query_semantics_witness :
  reachable index_2x2_A ∧ len (signature [1; 2; 9; 9]) = h index_2x2_A ∧
  ∃ res, query index_2x2_A (signature [1; 2; 9; 9]) = (Returned res, index_2x2_A) ∧
    NoDup res ∧
    ∀ key, key ∈ res ↔
      ∃ (i : Z) posting,
        (0 ≤ i < b index_2x2_A)%Z ∧
        path_posting (i :: slice (hashvalues (signature [1; 2; 9; 9]))
                                 (i * r index_2x2_A) ((i + 1) * r index_2x2_A))%Z
                     (root index_2x2_A) posting ∧
        key ∈ posting.
Proof.
  assert (len (signature [1; 2; 9; 9]) = h index_2x2_A) as Hlen by reflexivity.
  split; [apply index_2x2_A_reachable|]. split; [exact Hlen|].
  exact (query_semantics index_2x2_A (signature [1; 2; 9; 9]) index_2x2_A_reachable Hlen).
Defined.

(** C3 at the index that holds "A": a second insert of "A" is rejected. *)
Lemma insert_duplicate_rejected_witness :
  "A" ∈ keys index_2x2_A ∧ len (signature [5; 6; 7; 8]) = h index_2x2_A ∧
  insert index_2x2_A "A" (signature [5; 6; 7; 8]) true
  = (Raised (AssertionError (ValueError KeyExists)), index_2x2_A).
Proof.
  assert ("A" ∈ keys index_2x2_A) as Hkey by (vm_compute; set_solver).
  assert (len (signature [5; 6; 7; 8]) = h index_2x2_A) as Hlen by reflexivity.
  split; [exact Hkey|]. split; [exact Hlen|].
  exact (insert_duplicate_rejected index_2x2_A "A" (signature [5; 6; 7; 8]) Hkey Hlen).
Defined.

(** C4 at the index that holds "A", followed by [insert("B", [1,2,7,7])]. *)
Lemma insert_never_evicts_witness :
  reachable index_2x2_A ∧
  insert_all index_2x2_A [("B", signature [1; 2; 7; 7], true)]
  = Some (insert index_2x2_A "B" (signature [1; 2; 7; 7]) true).2 ∧
  ∃ res', query (insert index_2x2_A "B" (signature [1; 2; 7; 7]) true).2
                (signature [1; 2; 9; 9])
          = (Returned res', (insert index_2x2_A "B" (signature [1; 2; 7; 7]) true).2) ∧
          "A" ∈ res'.
Proof.
  assert (insert_all index_2x2_A [("B", signature [1; 2; 7; 7], true)]
          = Some (insert index_2x2_A "B" (signature [1; 2; 7; 7]) true).2) as Hall
    by (vm_compute; reflexivity).
  assert (query index_2x2_A (signature [1; 2; 9; 9]) = (Returned ["A"], index_2x2_A))
    as Hq by (vm_compute; reflexivity).
  assert ("A" ∈ ["A"]) as Hin by set_solver.
  split; [apply index_2x2_A_reachable|]. split; [exact Hall|].
  exact (proj2 (proj2 (insert_never_evicts index_2x2_A _ _ index_2x2_A_reachable Hall))
           (signature [1; 2; 9; 9]) ["A"] "A" Hq Hin).
Defined.

(** C5: on [MinHashLSHTrie(num_perm=4, params=(2, 2))], after
    [insert("A", [1,2,3,4])], [query([1,2,9,9])] returns ["A"] and
    [query([9,9,9,9])] returns the empty list. *)
Theorem worked_example :
  __init__ 0.9 4 [0.5; 0.5]%float (Some (2, 2)) = Returned index_2x2 ∧
  insert index_2x2 "A" (signature [1; 2; 3; 4]) true = (Returned (), index_2x2_A) ∧
  query index_2x2_A (signature [1; 2; 9; 9]) = (Returned ["A"], index_2x2_A) ∧
  query index_2x2_A (signature [9; 9; 9; 9]) = (Returned [], index_2x2_A).
Proof. repeat split; vm_compute; reflexivity. Qed.

(** C8 as amended, at [index_2x1]: positions 2 and 3 do not matter. *)
Lemma trailing_positions_unused_witness :
  reachable index_2x1 ∧ (0 ≤ r index_2x1)%Z ∧ (b index_2x1 * r index_2x1 < h index_2x1)%Z ∧
  insert index_2x1 "A" (signature [1; 2; 3; 4]) true
  = insert index_2x1 "A" (signature [1; 2; 9; 9]) true ∧
  query index_2x1 (signature [1; 2; 3; 4]) = query index_2x1 (signature [1; 2; 9; 9]).
Proof.
  assert (0 ≤ r index_2x1)%Z as Hr by (simpl; lia).
  assert (b index_2x1 * r index_2x1 < h index_2x1)%Z as Hbr by (simpl; lia).
  split; [apply index_2x1_reachable|]. split; [exact Hr|]. split; [exact Hbr|].
  apply (trailing_positions_unused index_2x1 "A" (signature [1; 2; 3; 4])
           (signature [1; 2; 9; 9]) true index_2x1_reachable Hr Hbr);
    [reflexivity|reflexivity|].
  intros [|[|j]] Hj; [reflexivity|reflexivity|simpl in Hj; lia].
Defined.

(** C8 as stated fails for a negative [r]: the constructor accepts
    [params = (1, -1)] with [num_perm = 4]; [b*r = -1 < 4], no position is
    below [b*r], and the one band reads [hashvalues[0:-1]], the first three
    positions. *)
Lemma trailing_positions_used_negative_r :
  __init__ 0.9 4 [0.5; 0.5]%float (Some (1, -1)) = Returned index_1xm1 ∧
  (b index_1xm1 * r index_1xm1 < h index_1xm1)%Z ∧
  len (signature [1; 2; 3; 4]) = h index_1xm1 ∧
  len (signature [5; 6; 7; 8]) = h index_1xm1 ∧
  (∀ j : nat, (Z.of_nat j < b index_1xm1 * r index_1xm1)%Z →
     hashvalues (signature [1; 2; 3; 4]) !! j = hashvalues (signature [5; 6; 7; 8]) !! j) ∧
  band_paths (hashranges index_1xm1) (signature [1; 2; 3; 4]) = [[0; 1; 2; 3]]%Z ∧
  insert index_1xm1 "A" (signature [1; 2; 3; 4]) true
  ≠ insert index_1xm1 "A" (signature [5; 6; 7; 8]) true ∧
  query index_1xm1_A (signature [1; 2; 3; 4]) = (Returned ["A"], index_1xm1_A) ∧
  query index_1xm1_A (signature [5; 6; 7; 8]) = (Returned [], index_1xm1_A).
Proof.
  split; [vm_compute; reflexivity|].
  split; [simpl; lia|].
  split; [reflexivity|]. split; [reflexivity|].
  split; [intros j Hj; simpl in Hj; lia|].
  split; [vm_compute; reflexivity|].
  split; [|split; vm_compute; reflexivity].
  intros Heq.
  apply (f_equal (λ o, (query o.2 (signature [1; 2; 3; 4])).1)) in Heq.
  vm_compute in Heq. discriminate Heq.
Qed.


(** C10 at [threshold = 1.5]. *)
Lemma init_validates_before_params_witness :
  PrimFloat.ltb 1 1.5 || PrimFloat.ltb 1.5 0 = true ∧
  ∃ msg, msg ∈ [ThresholdRange; TooFewPermutations; WeightRange; WeightSum] ∧
    ∀ params, __init__ (K:=string) 1.5 128 [0.5; 0.5]%float params
              = Raised (ValueError msg).
Proof.
  split; [reflexivity|].
  exact (init_validates_before_params (K:=string) 1.5 128 [0.5; 0.5]%float
           (or_introl eq_refl)).
Defined.

End Concrete.

(** ** The contents of the trie *)
Section Contents.
Context `{Countable K}.
Implicit Types (cur root : gmap Z (node K)) (nodes path : list Z) (key : K).

Lemma lookup_path_single n cur :
  lookup_path [n] cur
  = match cur !! n with Some (Leaf posting) => Some posting | _ => None end.
Proof. done. Qed.

Lemma lookup_path_cons n m rest cur :
  lookup_path (n :: m :: rest) cur
  = match cur !! n with Some (Dict d) => lookup_path (m :: rest) d | _ => None end.
Proof. done. Qed.

Lemma lookup_path_empty path : lookup_path (K:=K) path ∅ = None.
Proof. destruct path as [|n [|m rest]]; [done|..]; simpl; by rewrite lookup_empty. Qed.

Lemma lookup_path_posting path : ∀ cur posting,
  lookup_path path cur = Some posting ↔ path_posting path cur posting.
Proof.
  induction path as [|n rest IH]; intros cur posting.
  - split; [done|inversion 1].
  - destruct rest as [|m rest].
    + rewrite lookup_path_single. split.
      * destruct (cur !! n) as [[l|d]|] eqn:Hn; try done. intros [= ->]. by constructor.
      * inversion 1 as [? ? ? Hl|? ? ? ? ? ? Hp]; subst; [by rewrite Hl|inversion Hp].
    + rewrite lookup_path_cons. split.
      * destruct (cur !! n) as [[l|d]|] eqn:Hn; try done.
        intros Hl. econstructor; [done|]. by apply IH.
      * inversion 1 as [|? ? ? ? ? Hd Hp]; subst. rewrite Hd. by apply IH.
Qed.

(** What one written path changes: the posting list at that path gets the
    key at its end (a list of its own when the path was absent), and no
    other path changes. *)
Lemma insert_path_lookup key nodes leaf : ∀ cur cur' path,
  insert_path key nodes leaf cur = Some cur' →
  lookup_path path cur'
  = if decide (path = nodes ++ [leaf])
    then Some (default [] (lookup_path path cur) ++ [key])
    else lookup_path path cur.
Proof.
  induction nodes as [|n nodes IH]; intros cur cur' path Hins; simpl in Hins.
  - assert (∀ x, x ≠ leaf → cur' !! x = cur !! x) as Hne.
    { intros x Hx. destruct (cur !! leaf) as [[l|d]|]; simplify_eq;
        by rewrite lookup_insert_ne. }
    assert (∃ l, cur' !! leaf = Some (Leaf (l ++ [key])) ∧
                 (cur !! leaf = Some (Leaf l) ∨ (cur !! leaf = None ∧ l = []))) as Heq.
    { destruct (cur !! leaf) as [[l|d]|]; simplify_eq.
      - exists l. rewrite lookup_insert_eq. auto.
      - exists []. rewrite lookup_insert_eq. auto. }
    destruct Heq as (l & Hl' & Hl). simpl app.
    destruct path as [|x [|y rest]].
    + by rewrite decide_False.
    + rewrite !lookup_path_single. destruct (decide (x = leaf)) as [->|Hx].
      * rewrite decide_True by done. rewrite Hl'.
        destruct Hl as [->|[-> ->]]; done.
      * rewrite decide_False by congruence. by rewrite Hne.
    + rewrite decide_False by done. rewrite !lookup_path_cons.
      destruct (decide (x = leaf)) as [->|Hx]; [|by rewrite Hne].
      rewrite Hl'. by destruct Hl as [->|[-> _]].
  - assert (∃ d child, insert_path key nodes leaf d = Some child ∧
                       cur' = <[n := Dict child]> cur ∧
                       (cur !! n = Some (Dict d) ∨ (cur !! n = None ∧ d = ∅))) as Hstep.
    { destruct (cur !! n) as [[l|d]|]; [done| |].
      - destruct (insert_path key nodes leaf d) as [child|] eqn:Hch; [|done].
        exists d, child. simplify_eq/=. auto.
      - destruct (insert_path key nodes leaf ∅) as [child|] eqn:Hch; [|done].
        exists ∅, child. simplify_eq/=. auto. }
    destruct Hstep as (d & child & Hch & -> & Hd).
    change ((n :: nodes) ++ [leaf]) with (n :: (nodes ++ [leaf])).
    destruct path as [|x [|y rest]].
    + by rewrite decide_False.
    + rewrite decide_False by (intros [= _ Hnil]; by destruct nodes).
      rewrite !lookup_path_single. destruct (decide (x = n)) as [->|Hx].
      * rewrite lookup_insert_eq. by destruct Hd as [->|[-> _]].
      * by rewrite lookup_insert_ne.
    + rewrite !lookup_path_cons. destruct (decide (x = n)) as [->|Hx].
      * rewrite lookup_insert_eq, (IH _ _ _ Hch).
        assert (lookup_path (y :: rest) d
                = match cur !! n with
                  | Some (Dict d0) => lookup_path (y :: rest) d0
                  | _ => None
                  end) as <-.
        { destruct Hd as [->|[-> ->]]; [done|]. apply lookup_path_empty. }
        destruct (decide (y :: rest = nodes ++ [leaf])) as [Heq|Hne].
        -- rewrite decide_True by congruence. done.
        -- rewrite decide_False by congruence. done.
      * rewrite decide_False by congruence. by rewrite lookup_insert_ne.
Qed.

(** The same for the loop over paths that are pairwise different. *)
Lemma insert_paths_lookup key paths : ∀ root root' path,
  insert_paths key paths root = (root', true) →
  NoDup paths → Forall (λ p, p ≠ []) paths →
  lookup_path path root'
  = if decide (path ∈ paths)
    then Some (default [] (lookup_path path root) ++ [key])
    else lookup_path path root.
Proof.
  induction paths as [|p paths IH]; intros root root' path Hins Hnd Hne; simpl in Hins.
  - injection Hins as <-. rewrite decide_False; [done|]. apply not_elem_of_nil.
  - apply NoDup_cons in Hnd as [Hp Hnd]. apply Forall_cons in Hne as [Hpne Hne].
    destruct (insert_path key _ _ root) as [root1|] eqn:H1; [|done].
    rewrite (IH _ _ path Hins Hnd Hne), (insert_path_lookup _ _ _ _ _ path H1).
    assert (removelast p ++ [List.last p 0] = p) as ->.
    { symmetry. by apply app_removelast_last. }
    destruct (decide (path = p)) as [->|Hpath].
    + rewrite decide_False by done. rewrite decide_True by set_solver. done.
    + destruct (decide (path ∈ paths)) as [Hin|Hin].
      * rewrite decide_True by set_solver. done.
      * rewrite decide_False by set_solver. done.
Qed.

Lemma band_paths_NoDup hashranges minhash : NoDup (band_paths hashranges minhash).
Proof.
  apply NoDup_alt. intros i j path.
  intros (? & ? & _ & ->)%band_paths_lookup (? & ? & _ & [= Hij _])%band_paths_lookup.
  lia.
Qed.

Lemma band_paths_nonempty hashranges minhash :
  Forall (λ p, p ≠ []) (band_paths hashranges minhash).
Proof.
  apply Forall_lookup. by intros i path (? & ? & _ & ->)%band_paths_lookup.
Qed.

(** A band path of one signature is among the band paths of another exactly
    when the other has the same row values in that band. *)
Lemma band_path_elem_of hashranges m1 m2 (i : nat) start stop :
  hashranges !! i = Some (start, stop) →
  Z.of_nat i :: slice (hashvalues m1) start stop ∈ band_paths hashranges m2 ↔
  slice (hashvalues m2) start stop = slice (hashvalues m1) start stop.
Proof.
  intros Hi. rewrite list_elem_of_lookup. split.
  - intros (j & (s & e & Hj & [= Hij Hs])%band_paths_lookup).
    apply Nat2Z.inj in Hij as ->. by simplify_eq.
  - intros Heq. exists i. apply band_paths_lookup. exists start, stop. by rewrite Heq.
Qed.

Lemma keys_at_app hashranges (calls1 calls2 : list (K * MinHash * bool)) path :
  keys_at hashranges (calls1 ++ calls2) path
  = keys_at hashranges calls1 path ++ keys_at hashranges calls2 path.
Proof. unfold keys_at. apply flat_map_app. Qed.

Lemma keys_at_single hashranges key minhash cd path :
  keys_at hashranges [(key, minhash, cd)] path
  = if bool_decide (path ∈ band_paths hashranges minhash) then [key] else [].
Proof. unfold keys_at. simpl. apply app_nil_r. Qed.

Lemma elem_of_keys_at hashranges (calls : list (K * MinHash * bool)) path key :
  key ∈ keys_at hashranges calls path ↔
  ∃ minhash cd, (key, minhash, cd) ∈ calls ∧ path ∈ band_paths hashranges minhash.
Proof.
  unfold keys_at. rewrite list_elem_of_In, in_flat_map. split.
  - intros ([[k minhash] cd] & Hin%list_elem_of_In & Hk).
    case_bool_decide; [|done]. apply list_elem_of_In, list_elem_of_singleton in Hk as ->.
    eauto.
  - intros (minhash & cd & Hin & Hp). exists (key, minhash, cd).
    split; [by apply list_elem_of_In|]. rewrite bool_decide_eq_true_2 by done.
    apply list_elem_of_In. set_solver.
Qed.

Lemma keys_at_sublist hashranges (calls : list (K * MinHash * bool)) path :
  keys_at hashranges calls path `sublist_of` calls.*1.*1.
Proof.
  induction calls as [|[[key minhash] cd] calls IH]; [done|].
  unfold keys_at in *. simpl. case_bool_decide; simpl.
  - by apply sublist_skip.
  - by apply sublist_cons.
Qed.

(** Below dicts that are well formed at one depth, a present path has that
    many labels, and one more. *)
Lemma path_posting_length path cur posting :
  path_posting path cur posting →
  ∀ d, (∀ k c, cur !! k = Some c → wf_node d c) →
  length path = S d.
Proof.
  induction 1 as [leaf cur posting Hl|n path cur d' posting Hd Hp IH]; intros d Hwf.
  - apply Hwf in Hl. by inversion Hl.
  - apply Hwf in Hd. inversion Hd as [|d0 ? Hch]; subst.
    simpl. f_equal. by apply IH.
Qed.

(** In a well-formed root, a present path starts with a band index and has
    as many further labels as that band has rows. *)
Lemma path_posting_fits depth path cur posting :
  wf_dict depth cur → path_posting path cur posting → fits depth path.
Proof.
  intros Hwf Hp. inversion Hp as [leaf ? ? Hl|n rest ? d ? Hd Hrest]; subst; simpl.
  - destruct (Hwf _ _ Hl) as (d & Hd & Hn). inversion Hn; by subst.
  - destruct (Hwf _ _ Hd) as (d0 & Hd0 & Hn). inversion Hn as [|d1 ? Hch]; subst.
    rewrite Hd0. f_equal. by rewrite (path_posting_length _ _ _ Hrest d1 Hch).
Qed.

End Contents.

(** ** The index and the calls that built it *)
Section History.
Context `{Countable K} `{Optimizer}.
Implicit Types (self : MinHashLSHTrie (K:=K)) (key : K) (minhash : MinHash).
Implicit Types (calls : list (K * MinHash * bool)).

Lemma init_fresh threshold num_perm weights params self :
  __init__ threshold num_perm weights params = Returned self →
  root self = ∅ ∧ keys self = ∅.
Proof. unfold __init__. repeat case_match; try done. by intros [= <-]. Qed.

Lemma insert_Raised self key minhash cd e self' :
  insert self key minhash cd = (Raised e, self') → self' = self.
Proof. unfold insert. repeat case_match; naive_solver. Qed.

(** The trie after a call of [insert] that returns. *)
Lemma insert_lookup self key minhash cd u self' path :
  insert self key minhash cd = (Returned u, self') →
  lookup_path path (root self')
  = if decide (path ∈ band_paths (hashranges self) minhash)
    then Some (default [] (lookup_path path (root self)) ++ [key])
    else lookup_path path (root self).
Proof.
  intros (_ & Hpaths & _)%insert_Returned.
  apply (insert_paths_lookup _ _ _ _ _ Hpaths);
    [apply band_paths_NoDup|apply band_paths_nonempty].
Qed.

Lemma insert_all_app calls1 calls2 self :
  insert_all self (calls1 ++ calls2)
  = insert_all self calls1 ≫= λ self1, insert_all self1 calls2.
Proof.
  revert self. induction calls1 as [|[[key minhash] cd] calls1 IH]; intros self; [done|].
  simpl. destruct (insert self key minhash cd) as [[u| |] self1]; [apply IH|done..].
Qed.

(** An index a program can hold is a fresh index followed by calls of
    [insert] that returned: the other calls left it as it was. *)
Lemma reachable_history self :
  reachable self →
  ∃ threshold num_perm weights params self0 calls,
    __init__ threshold num_perm weights params = Returned self0 ∧
    insert_all self0 calls = Some self.
Proof.
  induction 1 as [thr np ws params self Hinit
                 |self key minhash cd Hreach IH|self minhash Hreach IH].
  - exists thr, np, ws, params, self, []. done.
  - destruct IH as (thr & np & ws & params & self0 & calls & Hinit & Hall).
    exists thr, np, ws, params, self0.
    destruct (insert self key minhash cd) as [[u|e|] self'] eqn:Hins; simpl.
    + exists (calls ++ [(key, minhash, cd)]).
      split; [done|]. rewrite insert_all_app, Hall. simpl. by rewrite Hins.
    + exists calls. by rewrite (insert_Raised _ _ _ _ _ _ Hins).
    + pose proof (insert_not_stuck self key minhash cd Hreach) as Hns.
      by rewrite Hins in Hns.
  - rewrite query_frame. done.
Qed.

Lemma insert_all_keys calls : ∀ self self',
  insert_all self calls = Some self' →
  keys self' = list_to_set calls.*1.*1 ∪ keys self.
Proof.
  induction calls as [|[[key minhash] cd] calls IH]; intros self self' Hall; simpl in *.
  - injection Hall as <-. set_solver.
  - destruct (insert self key minhash cd) as [[u| |] self1] eqn:Hins; try done.
    destruct (insert_Returned _ _ _ _ _ _ Hins) as (_ & _ & Hk).
    rewrite (IH _ _ Hall), Hk. set_solver.
Qed.

(** The posting list at a path is the list of the keys inserted under that
    path, in the order of the calls; a path nobody inserted is absent. *)
Lemma insert_all_lookup calls : ∀ self self' done_calls,
  insert_all self calls = Some self' →
  (∀ path, lookup_path path (root self)
           = match keys_at (hashranges self) done_calls path with
             | [] => None
             | posting => Some posting
             end) →
  ∀ path, lookup_path path (root self')
          = match keys_at (hashranges self) (done_calls ++ calls) path with
            | [] => None
            | posting => Some posting
            end.
Proof.
  induction calls as [|[[key minhash] cd] calls IH];
    intros self self' done_calls Hall Hrep path; simpl in *.
  - injection Hall as <-. by rewrite app_nil_r.
  - destruct (insert self key minhash cd) as [[u| |] self1] eqn:Hins; try done.
    pose proof (insert_frame self key minhash cd) as Hframe.
    rewrite Hins in Hframe. simpl in Hframe. destruct Hframe as (_ & _ & _ & Hhr).
    rewrite (cons_middle _ done_calls calls), app_assoc, <- Hhr.
    apply (IH self1 self' _ Hall). clear path. intros path.
    rewrite (insert_lookup _ _ _ _ _ _ path Hins), Hrep, Hhr, keys_at_app.
    rewrite keys_at_single.
    destruct (decide (path ∈ band_paths (hashranges self) minhash)) as [Hin|Hin].
    + rewrite bool_decide_eq_true_2 by done.
      destruct (keys_at (hashranges self) done_calls path); done.
    + rewrite bool_decide_eq_false_2 by done. by rewrite app_nil_r.
Qed.

Lemma fresh_lookup threshold num_perm weights params self0 calls self path :
  __init__ threshold num_perm weights params = Returned self0 →
  insert_all self0 calls = Some self →
  lookup_path path (root self)
  = match keys_at (hashranges self) calls path with
    | [] => None
    | posting => Some posting
    end.
Proof.
  intros Hinit Hall.
  destruct (insert_all_facts _ _ _ Hall) as (_ & -> & _).
  apply (insert_all_lookup calls self0 self [] Hall).
  intros p. destruct (init_fresh _ _ _ _ _ Hinit) as [-> _].
  apply lookup_path_empty.
Qed.

Lemma fresh_reachable threshold num_perm weights params self0 calls self :
  __init__ threshold num_perm weights params = Returned self0 →
  insert_all self0 calls = Some self → reachable self.
Proof.
  intros Hinit Hall. destruct (insert_all_facts _ _ _ Hall) as (_ & _ & _ & Hr & _).
  apply Hr. by eapply reachable_init.
Qed.

(** Calls that all check for duplicates insert pairwise different keys,
    none of which was in the key set. *)
Lemma insert_all_checked calls : ∀ self self',
  insert_all self calls = Some self' →
  Forall (λ call, call.2 = true) calls →
  NoDup calls.*1.*1 ∧ ∀ key, key ∈ calls.*1.*1 → key ∉ keys self.
Proof.
  induction calls as [|[[key minhash] cd] calls IH]; intros self self' Hall Hcd; simpl in *.
  - split; [constructor|]. by intros key []%elem_of_nil.
  - apply Forall_cons in Hcd as [Hcd1 Hcd]. simpl in Hcd1. subst cd.
    destruct (insert self key minhash true) as [[u| |] self1] eqn:Hins; try done.
    destruct (IH _ _ Hall Hcd) as (Hnd & Hfresh).
    destruct (insert_Returned _ _ _ _ _ _ Hins) as (_ & _ & Hk).
    assert (key ∉ keys self) as Hkey.
    { unfold insert in Hins. destruct (negb _); [done|]. simpl in Hins.
      case_bool_decide; done. }
    split.
    + constructor; [|done]. intros Hin%Hfresh. rewrite Hk in Hin. set_solver.
    + intros k [->|Hin%Hfresh]%elem_of_cons; [done|]. rewrite Hk in Hin. set_solver.
Qed.

Lemma elem_of_call_keys calls key :
  key ∈ calls.*1.*1 ↔ ∃ minhash cd, (key, minhash, cd) ∈ calls.
Proof.
  rewrite !list_elem_of_fmap. split.
  - intros ([k minhash] & -> & ([[k' minhash'] cd] & [= <- <-] & Hin)%list_elem_of_fmap).
    eauto.
  - intros (minhash & cd & Hin). exists (key, minhash). split; [done|].
    apply list_elem_of_fmap. by exists (key, minhash, cd).
Qed.

Lemma trie_contents_aux threshold num_perm weights params self0 calls self path :
  __init__ threshold num_perm weights params = Returned self0 →
  insert_all self0 calls = Some self →
  keys_at (hashranges self) calls path ≠ [] →
  path_posting path (root self) (keys_at (hashranges self) calls path).
Proof.
  intros Hinit Hall Hne.
  rewrite <- lookup_path_posting, (fresh_lookup _ _ _ _ _ _ _ path Hinit Hall).
  by destruct (keys_at (hashranges self) calls path).
Qed.

(** ** Further properties of [insert], [query] and [__contains__] *)

(** X1: on an index a program can hold, [insert] returns exactly when the
    signature has length [h] and the key is new or duplicates are not
    checked; the key set then gains the key and [h], [b], [r] and the hash
    ranges stay; a call that raises leaves the index as it was. *)
Theorem insert_outcome self key minhash cd :
  reachable self →
  ((∃ self', insert self key minhash cd = (Returned (), self')) ↔
     len minhash = h self ∧ (cd = false ∨ key ∉ keys self)) ∧
  (∀ self', insert self key minhash cd = (Returned (), self') →
     keys self' = {[key]} ∪ keys self ∧ h self' = h self ∧ b self' = b self ∧
     r self' = r self ∧ hashranges self' = hashranges self) ∧
  (∀ e self', insert self key minhash cd = (Raised e, self') → self' = self).
Proof.
  intros [Hhr Hroot]%reachable_inv. split; [|split].
  - split.
    + intros (self' & Hins). destruct (insert_Returned _ _ _ _ _ _ Hins) as (Hlen & _).
      split; [done|]. unfold insert in Hins.
      replace (len minhash =? h self) with true in Hins by lia. simpl in Hins.
      destruct cd; [|by left]. right. simpl in Hins. by case_bool_decide.
    + intros (Hlen & Hdup). unfold insert.
      replace (len minhash =? h self) with true by lia. simpl.
      assert (cd && bool_decide (key ∈ keys self) = false) as ->.
      { destruct Hdup as [->|Hkey]; [done|].
        rewrite bool_decide_eq_false_2 by done. apply andb_false_r. }
      pose proof (band_paths_fits (hashranges self) minhash) as Hfits.
      rewrite Hlen in Hfits.
      destruct (insert_paths_wf key _ _ _ Hfits Hroot) as (root' & -> & _). eauto.
  - intros self' Hins. destruct (insert_Returned _ _ _ _ _ _ Hins) as (_ & _ & Hk).
    pose proof (insert_frame self key minhash cd) as Hframe.
    rewrite Hins in Hframe. simpl in Hframe. tauto.
  - intros e self'. apply insert_Raised.
Qed.

(** X2: on an index a program can hold, [query] returns exactly when the
    signature has length [h]; otherwise it raises the length error. Either
    way the index is the one it was given. *)
Theorem query_outcome self minhash :
  reachable self →
  ((∃ res, query self minhash = (Returned res, self)) ↔ len minhash = h self) ∧
  (len minhash ≠ h self →
     query self minhash
     = (Raised (AssertionError (ValueError (ExpectingLength (h self) (len minhash)))),
        self)).
Proof.
  intros Hinv%reachable_inv. split.
  - split.
    + intros (res & Hq). unfold query in Hq.
      destruct (len minhash =? h self) eqn:E; [lia|done].
    + intros Hlen. destruct (query_spec self minhash Hinv Hlen) as (res & Hq & _). eauto.
  - intros Hlen. unfold query. by replace (len minhash =? h self) with false by lia.
Qed.

(** X3: on an index built by the constructor and calls of [insert] that
    returned, [key in index] is true exactly for the keys of those calls; on
    a fresh index it is false for every key. *)
Theorem contains_inserted threshold num_perm weights params self0 calls self key :
  __init__ threshold num_perm weights params = Returned self0 →
  insert_all self0 calls = Some self →
  __contains__ self0 key = false ∧
  (__contains__ self key = true ↔ ∃ minhash cd, (key, minhash, cd) ∈ calls).
Proof.
  intros Hinit Hall. destruct (init_fresh _ _ _ _ _ Hinit) as [_ Hk0].
  unfold __contains__. rewrite (insert_all_keys _ _ _ Hall), Hk0. split.
  - by apply bool_decide_eq_false_2.
  - rewrite bool_decide_eq_true, <- elem_of_call_keys. set_solver.
Qed.

(** X4: on an index built by the constructor and calls of [insert] that
    returned, the posting list at a present path is the list of the keys
    whose signature has that band path, one entry per call, in the order
    of the calls; a path is present exactly when that list is not empty. *)
Theorem trie_contents threshold num_perm weights params self0 calls self path posting :
  __init__ threshold num_perm weights params = Returned self0 →
  insert_all self0 calls = Some self →
  path_posting path (root self) posting ↔
  posting = keys_at (hashranges self) calls path ∧ posting ≠ [].
Proof.
  intros Hinit Hall.
  rewrite <- lookup_path_posting, (fresh_lookup _ _ _ _ _ _ _ path Hinit Hall).
  destruct (keys_at (hashranges self) calls path) as [|k l]; naive_solver.
Qed.

(** X5: on such an index, [query(S)] returns exactly the keys inserted with
    a signature that has the same row values as [S] in all rows of some
    band; equal values in different bands do not count. *)
Theorem query_candidates threshold num_perm weights params self0 calls self minhash :
  __init__ threshold num_perm weights params = Returned self0 →
  insert_all self0 calls = Some self →
  len minhash = h self →
  ∃ res, query self minhash = (Returned res, self) ∧
    ∀ key, key ∈ res ↔
      ∃ minhash' cd (i : Z),
        (key, minhash', cd) ∈ calls ∧ 0 ≤ i < b self ∧
        slice (hashvalues minhash') (i * r self) ((i + 1) * r self)
        = slice (hashvalues minhash) (i * r self) ((i + 1) * r self).
Proof.
  intros Hinit Hall Hlen.
  pose proof (reachable_inv _ (fresh_reachable _ _ _ _ _ _ _ Hinit Hall)) as Hinv.
  destruct (query_spec self minhash Hinv Hlen) as (res & Hq & _ & Hres).
  exists res. split; [done|]. intros key. rewrite Hres. split.
  - intros (i & start & stop & posting & Hi & Hp & Hk).
    apply lookup_path_posting in Hp.
    rewrite (fresh_lookup _ _ _ _ _ _ _ _ Hinit Hall) in Hp.
    assert (key ∈ keys_at (hashranges self) calls
                    (Z.of_nat i :: slice (hashvalues minhash) start stop)) as Hin.
    { destruct (keys_at _ _ _); naive_solver. }
    apply elem_of_keys_at in Hin as (minhash' & cd & Hcall & Hpath).
    apply (band_path_elem_of _ _ _ _ _ _ Hi) in Hpath.
    rewrite (inv_hashranges _ Hinv) in Hi.
    apply make_hashranges_lookup in Hi as (Hib & -> & ->).
    exists minhash', cd, (Z.of_nat i). split; [done|]. split; [lia|done].
  - intros (minhash' & cd & i & Hcall & Hi & Heq).
    assert (hashranges self !! Z.to_nat i = Some (i * r self, (i + 1) * r self)) as Hband.
    { rewrite (inv_hashranges _ Hinv). apply make_hashranges_lookup.
      rewrite Z2Nat.id by lia. auto with lia. }
    assert (key ∈ keys_at (hashranges self) calls
              (i :: slice (hashvalues minhash) (i * r self) ((i + 1) * r self))) as Hin.
    { apply elem_of_keys_at. exists minhash', cd. split; [done|].
      rewrite <- (Z2Nat.id i) at 1 by lia. by apply band_path_elem_of. }
    exists (Z.to_nat i), (i * r self), ((i + 1) * r self),
           (keys_at (hashranges self) calls
              (i :: slice (hashvalues minhash) (i * r self) ((i + 1) * r self))).
    split; [done|]. split; [|done].
    rewrite Z2Nat.id by lia. eapply trie_contents_aux; eauto.
    intros Hnil. rewrite Hnil in Hin. by apply elem_of_nil in Hin.
Qed.

(** X6: a call of [insert] that returns appends the key to the posting list
    at each band path of the signature, creating the list when the path
    was absent, and leaves the posting list at every other path as it was. *)
Theorem insert_appends self key minhash cd self' path posting' :
  insert self key minhash cd = (Returned (), self') →
  (path ∈ band_paths (hashranges self) minhash →
     path_posting path (root self') posting' ↔
     ∃ old, posting' = old ++ [key] ∧
            (path_posting path (root self) old ∨
             old = [] ∧ ∀ posting, ¬ path_posting path (root self) posting)) ∧
  (path ∉ band_paths (hashranges self) minhash →
     path_posting path (root self') posting' ↔ path_posting path (root self) posting').
Proof.
  intros Hins. rewrite <- !lookup_path_posting.
  rewrite (insert_lookup _ _ _ _ _ _ path Hins). split; intros Hin.
  - rewrite decide_True by done. split.
    + intros [= <-]. destruct (lookup_path path (root self)) as [old|] eqn:Hold.
      * exists old. split; [done|]. left. by apply lookup_path_posting.
      * exists []. split; [done|]. right. split; [done|].
        intros posting Hp%lookup_path_posting. congruence.
    + intros (old & -> & [Hp%lookup_path_posting|[-> Hno]]).
      * by rewrite Hp.
      * destruct (lookup_path path (root self)) as [l|] eqn:Hl; [|done].
        by apply lookup_path_posting, Hno in Hl.
  - rewrite decide_False by done. by rewrite lookup_path_posting.
Qed.

(** X7: when every call of [insert] checked for duplicates, no posting list
    holds a key twice. *)
Theorem checked_postings_NoDup threshold num_perm weights params self0 calls self
    path posting :
  __init__ threshold num_perm weights params = Returned self0 →
  insert_all self0 calls = Some self →
  Forall (λ call, call.2 = true) calls →
  path_posting path (root self) posting →
  NoDup posting.
Proof.
  intros Hinit Hall Hcd Hp%lookup_path_posting.
  rewrite (fresh_lookup _ _ _ _ _ _ _ _ Hinit Hall) in Hp.
  destruct (insert_all_checked _ _ _ Hall Hcd) as [Hnd _].
  pose proof (sublist_NoDup _ _ Hnd (keys_at_sublist (hashranges self) calls path)) as Hk.
  destruct (keys_at (hashranges self) calls path); naive_solver.
Qed.

(** X8: on an index a program can hold, with [0 ≤ r] and [b*r ≤ h], every
    present path is a band index below [b] followed by exactly [r] row
    values, and its posting list is not empty. *)
Theorem present_paths_shape self path posting :
  reachable self → 0 ≤ r self → b self * r self ≤ h self →
  path_posting path (root self) posting →
  ∃ (i : Z) rows, path = i :: rows ∧ 0 ≤ i < b self ∧
                  Z.of_nat (length rows) = r self ∧ posting ≠ [].
Proof.
  intros Hreach Hr Hbr Hp.
  pose proof (reachable_inv _ Hreach) as [Hhr Hroot].
  pose proof (path_posting_fits _ _ _ _ Hroot Hp) as Hfits.
  destruct path as [|i rows]; [done|]. simpl in Hfits. unfold band_depth in Hfits.
  case_decide as Hi; [|done].
  destruct (hashranges self !! Z.to_nat i) as [[start stop]|] eqn:Hband; [|done].
  rewrite Hhr in Hband. apply make_hashranges_lookup in Hband as (Hib & -> & ->).
  rewrite Z2Nat.id in * by lia. injection Hfits as Hlen.
  exists i, rows. split; [done|]. split; [lia|]. split.
  - rewrite <- Hlen. unfold slice_length, slice_index.
    replace (i * r self <? 0) with false by nia.
    replace ((i + 1) * r self <? 0) with false by nia.
    rewrite !Z.min_l by nia. nia.
  - destruct (reachable_history _ Hreach)
      as (thr & np & ws & params & self0 & calls & Hinit & Hall).
    apply lookup_path_posting in Hp.
    rewrite (fresh_lookup _ _ _ _ _ _ _ _ Hinit Hall) in Hp.
    destruct (keys_at _ _ _); naive_solver.
Qed.

(** X9: on an index a program can hold, every key that [query] returns is a
    key of the index: [key in index] is true for it. *)
Theorem query_returns_contained self minhash res key :
  reachable self →
  query self minhash = (Returned res, self) → key ∈ res →
  __contains__ self key = true.
Proof.
  intros Hreach Hq Hkey.
  assert (len minhash = h self) as Hlen.
  { unfold query in Hq. destruct (len minhash =? h self) eqn:E; [lia|done]. }
  destruct (query_spec self minhash (reachable_inv _ Hreach) Hlen)
    as (res0 & Hq0 & _ & Hres).
  assert (res0 = res) as -> by congruence.
  apply Hres in Hkey as (i & start & stop & posting & _ & Hp & Hk).
  destruct (reachable_history _ Hreach)
    as (thr & np & ws & params & self0 & calls & Hinit & Hall).
  apply lookup_path_posting in Hp.
  rewrite (fresh_lookup _ _ _ _ _ _ _ _ Hinit Hall) in Hp.
  assert (key ∈ keys_at (hashranges self) calls
                  (Z.of_nat i :: slice (hashvalues minhash) start stop)) as Hin.
  { destruct (keys_at _ _ _); naive_solver. }
  apply elem_of_keys_at in Hin as (minhash' & cd & Hcall & _).
  unfold __contains__. apply bool_decide_eq_true.
  rewrite (insert_all_keys _ _ _ Hall). apply elem_of_union_l, elem_of_list_to_set.
  apply elem_of_call_keys. eauto.
Qed.

End History.

(** ** The further properties at concrete indexes *)
Section MoreConcrete.
Import Example.
#[local] Open Scope string_scope.

Lemma index_2x2_init :
  __init__ 0.9 4 [0.5; 0.5]%float (Some (2, 2)%Z) = Returned index_2x2.
Proof. reflexivity. Qed.

Lemma index_2x2_A_built :
  insert_all index_2x2 [("A", signature [1; 2; 3; 4], true)] = Some index_2x2_A.
Proof. vm_compute. reflexivity. Qed.

Lemma index_2x2_A_path :
  path_posting [0; 1; 2]%Z (root index_2x2_A) ["A"].
Proof. apply lookup_path_posting. vm_compute. reflexivity. Qed.

(** X1 at the fresh [index_2x2]: the first insert of "A" returns. *)
Lemma insert_outcome_witness :
  reachable index_2x2 ∧
  ((∃ self', insert index_2x2 "A" (signature [1; 2; 3; 4]) true = (Returned (), self')) ↔
     len (signature [1; 2; 3; 4]) = h index_2x2 ∧
     (true = false ∨ "A" ∉ keys index_2x2)).
Proof.
  split; [apply index_2x2_reachable|].
  exact (proj1 (insert_outcome index_2x2 "A" (signature [1; 2; 3; 4]) true
                  index_2x2_reachable)).
Defined.

(** X2 at the index that holds "A" and a signature of length 3. *)
Lemma query_outcome_witness :
  reachable index_2x2_A ∧
  ((∃ res, query index_2x2_A (signature [1; 2; 3]) = (Returned res, index_2x2_A)) ↔
     len (signature [1; 2; 3]) = h index_2x2_A).
Proof.
  split; [apply index_2x2_A_reachable|].
  exact (proj1 (query_outcome index_2x2_A (signature [1; 2; 3]) index_2x2_A_reachable)).
Defined.

(** X3 at the index built by [insert("A", [1,2,3,4])]. *)
Lemma contains_inserted_witness :
  __init__ 0.9 4 [0.5; 0.5]%float (Some (2, 2)%Z) = Returned index_2x2 ∧
  insert_all index_2x2 [("A", signature [1; 2; 3; 4], true)] = Some index_2x2_A ∧
  __contains__ index_2x2 "B" = false ∧
  (__contains__ index_2x2_A "B" = true ↔
     ∃ minhash cd, ("B", minhash, cd) ∈ [("A", signature [1; 2; 3; 4], true)]).
Proof.
  split; [exact index_2x2_init|]. split; [exact index_2x2_A_built|].
  exact (contains_inserted 0.9 4 [0.5; 0.5]%float (Some (2, 2)%Z) index_2x2
           [("A", signature [1; 2; 3; 4], true)] index_2x2_A "B"
           index_2x2_init index_2x2_A_built).
Defined.

(** X4 at the same index and the path of band 0. *)
Lemma trie_contents_witness :
  __init__ 0.9 4 [0.5; 0.5]%float (Some (2, 2)%Z) = Returned index_2x2 ∧
  insert_all index_2x2 [("A", signature [1; 2; 3; 4], true)] = Some index_2x2_A ∧
  (path_posting [0; 1; 2]%Z (root index_2x2_A) ["A"] ↔
   ["A"] = keys_at (hashranges index_2x2_A) [("A", signature [1; 2; 3; 4], true)]
                   [0; 1; 2]%Z ∧
   ["A"] ≠ []).
Proof.
  split; [exact index_2x2_init|]. split; [exact index_2x2_A_built|].
  exact (trie_contents 0.9 4 [0.5; 0.5]%float (Some (2, 2)%Z) index_2x2
           [("A", signature [1; 2; 3; 4], true)] index_2x2_A [0; 1; 2]%Z ["A"]
           index_2x2_init index_2x2_A_built).
Defined.

(** X5 at the same index and the signature [1, 2, 9, 9]. *)
Lemma query_candidates_witness :
  __init__ 0.9 4 [0.5; 0.5]%float (Some (2, 2)%Z) = Returned index_2x2 ∧
  insert_all index_2x2 [("A", signature [1; 2; 3; 4], true)] = Some index_2x2_A ∧
  len (signature [1; 2; 9; 9]) = h index_2x2_A ∧
  ∃ res, query index_2x2_A (signature [1; 2; 9; 9]) = (Returned res, index_2x2_A) ∧
    ∀ key, key ∈ res ↔
      ∃ minhash' cd (i : Z),
        (key, minhash', cd) ∈ [("A", signature [1; 2; 3; 4], true)] ∧
        (0 ≤ i < b index_2x2_A)%Z ∧
        slice (hashvalues minhash') (i * r index_2x2_A) ((i + 1) * r index_2x2_A)%Z
        = slice (hashvalues (signature [1; 2; 9; 9]))
                (i * r index_2x2_A) ((i + 1) * r index_2x2_A)%Z.
Proof.
  split; [exact index_2x2_init|]. split; [exact index_2x2_A_built|].
  split; [reflexivity|].
  exact (query_candidates 0.9 4 [0.5; 0.5]%float (Some (2, 2)%Z) index_2x2
           [("A", signature [1; 2; 3; 4], true)] index_2x2_A (signature [1; 2; 9; 9])
           index_2x2_init index_2x2_A_built eq_refl).
Defined.

(** X6 at the first insert into [index_2x2] and the path of band 0. *)
Lemma insert_appends_witness :
  insert index_2x2 "A" (signature [1; 2; 3; 4]) true = (Returned (), index_2x2_A) ∧
  ([0; 1; 2]%Z ∈ band_paths (hashranges index_2x2) (signature [1; 2; 3; 4]) →
     path_posting [0; 1; 2]%Z (root index_2x2_A) ["A"] ↔
     ∃ old, ["A"] = (old ++ ["A"])%list ∧
            (path_posting [0; 1; 2]%Z (root index_2x2) old ∨
             old = [] ∧ ∀ posting, ¬ path_posting [0; 1; 2]%Z (root index_2x2) posting)).
Proof.
  assert (insert index_2x2 "A" (signature [1; 2; 3; 4]) true
          = (Returned (), index_2x2_A)) as Hins by (vm_compute; reflexivity).
  split; [exact Hins|].
  exact (proj1 (insert_appends index_2x2 "A" (signature [1; 2; 3; 4]) true index_2x2_A
                  [0; 1; 2]%Z ["A"] Hins)).
Defined.

(** X7 at the index built by one checked insert. *)
Lemma checked_postings_NoDup_witness :
  __init__ 0.9 4 [0.5; 0.5]%float (Some (2, 2)%Z) = Returned index_2x2 ∧
  insert_all index_2x2 [("A", signature [1; 2; 3; 4], true)] = Some index_2x2_A ∧
  Forall (λ call : string * MinHash * bool, call.2 = true)
         [("A", signature [1; 2; 3; 4], true)] ∧
  path_posting [0; 1; 2]%Z (root index_2x2_A) ["A"] ∧
  NoDup ["A"].
Proof.
  assert (Forall (λ call : string * MinHash * bool, call.2 = true)
                 [("A", signature [1; 2; 3; 4], true)]) as Hcd
    by (repeat constructor).
  split; [exact index_2x2_init|]. split; [exact index_2x2_A_built|].
  split; [exact Hcd|]. split; [exact index_2x2_A_path|].
  exact (checked_postings_NoDup 0.9 4 [0.5; 0.5]%float (Some (2, 2)%Z) index_2x2
           [("A", signature [1; 2; 3; 4], true)] index_2x2_A [0; 1; 2]%Z ["A"]
           index_2x2_init index_2x2_A_built Hcd index_2x2_A_path).
Defined.

(** X8 at the index that holds "A" and the path of band 0. *)
Lemma present_paths_shape_witness :
  reachable index_2x2_A ∧ (0 ≤ r index_2x2_A)%Z ∧
  (b index_2x2_A * r index_2x2_A ≤ h index_2x2_A)%Z ∧
  path_posting [0; 1; 2]%Z (root index_2x2_A) ["A"] ∧
  ∃ (i : Z) rows, [0; 1; 2]%Z = i :: rows ∧ (0 ≤ i < b index_2x2_A)%Z ∧
                  Z.of_nat (length rows) = r index_2x2_A ∧ ["A"] ≠ [].
Proof.
  assert (0 ≤ r index_2x2_A)%Z as Hr by (vm_compute; discriminate).
  assert (b index_2x2_A * r index_2x2_A ≤ h index_2x2_A)%Z as Hbr
    by (vm_compute; discriminate).
  split; [apply index_2x2_A_reachable|]. split; [exact Hr|]. split; [exact Hbr|].
  split; [exact index_2x2_A_path|].
  exact (present_paths_shape index_2x2_A [0; 1; 2]%Z ["A"]
           index_2x2_A_reachable Hr Hbr index_2x2_A_path).
Defined.

(** X9 at the index that holds "A" and the signature [1, 2, 9, 9]. *)
Lemma query_returns_contained_witness :
  reachable index_2x2_A ∧
  query index_2x2_A (signature [1; 2; 9; 9]) = (Returned ["A"], index_2x2_A) ∧
  "A" ∈ ["A"] ∧
  __contains__ index_2x2_A "A" = true.
Proof.
  assert (query index_2x2_A (signature [1; 2; 9; 9]) = (Returned ["A"], index_2x2_A))
    as Hq by (vm_compute; reflexivity).
  assert ("A" ∈ ["A"]) as Hin by set_solver.
  split; [apply index_2x2_A_reachable|]. split; [exact Hq|]. split; [exact Hin|].
  exact (query_returns_contained index_2x2_A (signature [1; 2; 9; 9]) ["A"] "A"
           index_2x2_A_reachable Hq Hin).
Defined.

End MoreConcrete.

End LshTrieSpec.

(** * Properties of bulk.py *)
Module BulkSpec.
Import Py Bulk.

Section Bulk.
Context `{MinHashLib}.

(** [list] of a generator suspended in the loop: one signature per item
    left, in the order of the items. *)
Lemma list_of_Suspended rest m :
  list_of (pending (Suspended rest m)) (Suspended rest m)
  = Returned ((λ _b, compute_minhash _b m) <$> rest).
Proof.
  induction rest as [|_b rest IH]; [done|].
  simpl in *. by rewrite IH.
Qed.

(** [pending g] calls of [next] are enough for [list(g)]. *)
Lemma list_of_pending g : list_of (pending g) g ≠ Stuck.
Proof.
  destruct g as [[items|type_name] m|rest m|]; [| done | | done].
  - destruct items as [|_b items]; [done|].
    pose proof (list_of_Suspended items (default MinHash_default m)) as Hl.
    destruct m; simpl in *; by rewrite Hl.
  - by rewrite list_of_Suspended.
Qed.

(** On an iterable, [compute_minhashes] returns one signature per item, in
    the order of the items, built from [m], or from [MinHash()] when [m] is
    [None]. *)
Lemma compute_minhashes_iterable items m :
  compute_minhashes (PyIterable items) m
  = Returned ((λ _b, compute_minhash _b (default MinHash_default m)) <$> items).
Proof.
  unfold compute_minhashes, compute_minhashes_generator.
  destruct items as [|_b items]; [done|].
  pose proof (list_of_Suspended items (default MinHash_default m)) as Hl.
  destruct m; simpl in *; by rewrite Hl.
Qed.

(** After its first [next], the generator over an argument that is not
    iterable is finished. *)
Lemma advance_not_iterable type_name m (n : nat) :
  advance (S n) (Created (PyOther type_name) m) = Finished.
Proof.
  induction n as [|n IH]; [done|].
  unfold advance in *. by rewrite Nat.iter_succ, IH.
Qed.

(** C9, amended for the generator: [compute_minhashes] fails at the call
    exactly when its argument is not iterable. The call of
    [compute_minhashes_generator] never fails: it returns a generator;
    when the argument is not iterable, the first [next] on that generator
    fails with the error of [compute_minhashes] and finishes it, and no
    [next] ever yields a signature. *)
Theorem not_iterable_rejected (b : pyobj) (m : option MinHash) :
  ((∃ e, compute_minhashes b m = Raised e) ↔ ∃ type_name, b = PyOther type_name) ∧
  ∃ g, compute_minhashes_generator b m = Returned g ∧
    ∀ type_name, b = PyOther type_name →
      (∃ e, next g = (Thrown e, Finished) ∧ compute_minhashes b m = Raised e) ∧
      ∀ (n : nat) v, (next (advance n g)).1 ≠ Yielded v.
Proof.
  destruct b as [items|type_name].
  - split.
    + rewrite compute_minhashes_iterable. split; [by intros [e ?]|by intros [ty ?]].
    + eexists. split; [done|]. by intros ty.
  - split.
    + split; [eauto|]. intros _. by eexists.
    + eexists. split; [done|]. intros ty _. split.
      * by eexists.
      * intros [|n] v; [done|]. by rewrite advance_not_iterable.
Qed.

End Bulk.

Import Example.

(** C9 as stated fails for the generator: called with an [int], it raises
    nothing and returns a generator that has not started. *)
Lemma generator_call_does_not_raise :
  compute_minhashes_generator (PyOther "int") None
  = Returned (Created (PyOther "int") None) ∧
  ¬ ∃ e, compute_minhashes_generator (PyOther "int") None = Raised e.
Proof. split; [done|]. by intros [e ?]. Qed.

End BulkSpec.

(** * Further properties of bulk.py *)
Module BulkMore.
Import Py Bulk.

Section Bulk.
Context `{MinHashLib}.

(** The generator that has been resumed at least once: suspended before
    the next item, or finished when there is none left. *)
Lemma advance_S items m (i : nat) :
  advance (S i) (Created (PyIterable items) m)
  = if decide (i < length items)%nat
    then Suspended (drop (S i) items) (default MinHash_default m)
    else Finished.
Proof.
  induction i as [|i IH].
  - unfold advance. simpl. destruct items as [|item items]; simpl.
    + by destruct m.
    + rewrite drop_0. by destruct m.
  - unfold advance in *. rewrite Nat.iter_succ, IH. clear IH.
    destruct (decide (i < length items)%nat) as [Hi|Hi].
    + simpl. destruct (decide (S i < length items)%nat) as [Hi'|Hi'].
      * destruct (lookup_lt_is_Some_2 items (S i) Hi') as [item Hitem].
        by rewrite (drop_S _ _ _ Hitem).
      * by rewrite drop_ge by lia.
    + rewrite decide_False by lia. done.
Qed.

(** X10: on an iterable, [compute_minhashes] returns one signature per
    item, in the order of the items, each computed from the template, or
    from [MinHash()] when the template is [None]. *)
Theorem compute_minhashes_in_order items m :
  ∃ sigs, compute_minhashes (PyIterable items) m = Returned sigs ∧
    length sigs = length items ∧
    ∀ (i : nat) item, items !! i = Some item →
      sigs !! i = Some (compute_minhash item (default MinHash_default m)).
Proof.
  eexists. split; [apply BulkSpec.compute_minhashes_iterable|].
  split; [by rewrite length_fmap|].
  intros i item Hi. by rewrite list_lookup_fmap, Hi.
Qed.

(** X11: the generator over an iterable yields the signature of the item at
    position [i] at the call of [next] number [i] (from 0) and is then
    suspended before the next item; every call after the last item gives
    [StopIteration]. *)
Theorem generator_yields_in_order items m (i : nat) :
  (∀ item, items !! i = Some item →
     next (advance i (Created (PyIterable items) m))
     = (Yielded (compute_minhash item (default MinHash_default m)),
        Suspended (drop (S i) items) (default MinHash_default m))) ∧
  ((length items ≤ i)%nat →
     (next (advance i (Created (PyIterable items) m))).1 = StopIteration).
Proof.
  destruct i as [|i].
  - unfold advance. simpl. split.
    + intros item Hitem. destruct items as [|item' items]; simplify_eq/=.
      rewrite drop_0. by destruct m.
    + intros Hlen. destruct items; [done|simpl in Hlen; lia].
  - rewrite advance_S. split.
    + intros item Hitem. pose proof (lookup_lt_Some _ _ _ Hitem) as Hlt.
      rewrite decide_True by lia. simpl. by rewrite (drop_S _ _ _ Hitem).
    + intros Hlen. destruct (decide (i < length items)%nat); [|done].
      simpl. by rewrite drop_ge by lia.
Qed.

End Bulk.
End BulkMore.
